(** * generate_der.js: schema inference and diagram rendering

    A shallow embedding of [generate_der.js], the script that reads an
    Oracle SQL dump, infers tables, columns and foreign-key relationships
    with regular expressions, and renders them as Mermaid markdown.

    Modelling choices.
    - A JavaScript string is a list of characters ([str]), one per UTF-16
      code unit, and the text of a dump is taken to hold code units below
      256 only (ASCII and Latin-1 text).  White space, for [\s] and for
      [trim], is then tab, line feed, vertical tab, form feed, carriage
      return, space and the no-break space U+00A0; the letters the
      patterns and [cleanName] name are the ASCII ones, and under the [i]
      flag a character matches a letter of a pattern only when it is that
      letter, in either case.  [toUpperCase] is modelled on the letters
      a-z: the script only looks for ASCII keywords in upper-cased text, or
      compares an upper-cased canonical name with one, and upper-casing
      the other characters below 256 yields no ASCII letter but the SS of
      the sharp s, which could only bear on a keyword that starts or ends
      with S or holds SS; the script has none.  The accented letters and
      the pictographs of the fixed Spanish output text are constants that
      meet no test of the script; they are carried as the UTF-8 bytes of
      the literals.
    - A regular expression literal is a value of [regex]; matching is the
      backtracking, continuation-passing matcher of the ECMAScript
      specification ([rmatch], with [repeatMatcher] for the stars), with
      greedy and lazy repetition, capture groups and the two anchors.
    - The global [tables] Map is an insertion-ordered association list
      ([mapSet] keeps the position of a key that is already present, as
      Map.prototype.set does); the global [relationships] array is a list.
    - [fs.writeFileSync] appends a (file name, content) pair to the list of
      written files; the clock, the input file name and the output file
      name are parameters of the rendering section. *)

From Stdlib Require Import String List Ascii ZArith Lia Bool Arith DecimalString
  DecimalNat.
Import ListNotations.
Open Scope string_scope.
Open Scope list_scope.
Open Scope nat_scope.

(** ** Strings *)

Definition str := list ascii.

Coercion list_ascii_of_string : string >-> list.

Definition nl : ascii := "010"%char.
Definition dq : ascii := "034"%char.

Definition code (c : ascii) : nat := nat_of_ascii c.

Definition inRange (lo hi : nat) (c : ascii) : bool :=
  (lo <=? code c) && (code c <=? hi).

(** White space as seen by [\s] and by [String.prototype.trim]: the
    white-space and line-terminator code points of ECMAScript that lie
    below 256, which are tab, line feed, vertical tab, form feed, carriage
    return, space and the no-break space U+00A0. *)
Definition isSpace (c : ascii) : bool :=
  inRange 9 13 c || (code c =? 32) || (code c =? 160).

Definition isDigit (c : ascii) : bool := inRange 48 57 c.
Definition isUpper (c : ascii) : bool := inRange 65 90 c.
Definition isLower (c : ascii) : bool := inRange 97 122 c.

(** The class [a-zA-Z0-9_]. *)
Definition isWord (c : ascii) : bool :=
  isLower c || isUpper c || isDigit c || (code c =? 95).

Definition upperChar (c : ascii) : ascii :=
  if isLower c then ascii_of_nat (code c - 32) else c.

(** [s.toUpperCase()], on the letters a-z. *)
Definition toUpperCase (s : str) : str := map upperChar s.

Fixpoint strEq (a b : str) : bool :=
  match a, b with
  | [], [] => true
  | x :: a', y :: b' => Ascii.eqb x y && strEq a' b'
  | _, _ => false
  end.

Fixpoint startsWith (p s : str) : bool :=
  match p, s with
  | [], _ => true
  | x :: p', y :: s' => Ascii.eqb x y && startsWith p' s'
  | _ :: _, [] => false
  end.

(** [s.includes(sub)] *)
Fixpoint includes (sub s : str) : bool :=
  startsWith sub s ||
  match s with
  | [] => false
  | _ :: s' => includes sub s'
  end.

Fixpoint dropSpace (s : str) : str :=
  match s with
  | [] => []
  | c :: s' => if isSpace c then dropSpace s' else s
  end.

(** [s.trim()] *)
Definition trim (s : str) : str := rev (dropSpace (rev (dropSpace s))).

(** [s.split(sep)] for a one-character separator. *)
Fixpoint split (sep : ascii) (s : str) : list str :=
  match s with
  | [] => [[]]
  | c :: s' =>
      if Ascii.eqb c sep then [] :: split sep s'
      else match split sep s' with
           | h :: t => (c :: h) :: t
           | [] => [[c]]
           end
  end.

(** [xs.join(sep)] *)
Fixpoint join (sep : str) (xs : list str) : str :=
  match xs with
  | [] => []
  | [x] => x
  | x :: rest => x ++ sep ++ join sep rest
  end.

(** Decimal rendering of a number inside a template literal. *)
Definition dec (n : nat) : str := NilEmpty.string_of_uint (Nat.to_uint n).

(** ** Regular expressions *)

Inductive regex : Type :=
| Eps : regex
| Cls : (ascii -> bool) -> regex
| Seq : regex -> regex -> regex
| Star : bool -> regex -> regex
| Opt : regex -> regex
| Grp : nat -> regex -> regex
| Bol : regex
| Eol : regex.

Record mstate : Type := MState {
  index : nat;
  rest : str;
  caps : list (nat * str)
}.

Definition advance (x : mstate) (s : str) : mstate :=
  MState (S (index x)) s (caps x).

Definition capture (n : nat) (x y : mstate) : mstate :=
  MState (index y) (rest y)
         ((n, firstn (index y - index x) (rest x)) :: caps y).

(** RepeatMatcher for a star: [m] matches one iteration, [k] is what
    follows the star.  An iteration that consumes nothing is rejected.
    The counter [n] starts at the length of the remaining input plus one,
    which iterations that must consume can never exhaust. *)
Fixpoint repeatMatcher (greedy : bool)
  (m : (mstate -> option mstate) -> mstate -> option mstate)
  (k : mstate -> option mstate) (n : nat) (x : mstate) {struct n}
  : option mstate :=
  match n with
  | O => k x
  | S n' =>
      let d := fun y => if index x <? index y
                        then repeatMatcher greedy m k n' y else None in
      if greedy then
        match m d x with
        | Some z => Some z
        | None => k x
        end
      else
        match k x with
        | Some z => Some z
        | None => m d x
        end
  end.

(** [rmatch r k x]: match [r] at [x], then the continuation [k]; the
    first alternative that leads to an overall match wins.  [Opt r] is the
    greedy [r?], whose single iteration must consume as well. *)
Fixpoint rmatch (r : regex) (k : mstate -> option mstate) (x : mstate)
  {struct r} : option mstate :=
  match r with
  | Eps => k x
  | Cls p =>
      match rest x with
      | c :: s => if p c then k (advance x s) else None
      | [] => None
      end
  | Seq r1 r2 => rmatch r1 (rmatch r2 k) x
  | Star greedy r1 =>
      repeatMatcher greedy (rmatch r1) k (S (length (rest x))) x
  | Opt r1 =>
      match rmatch r1 (fun y => if index x <? index y then k y else None) x with
      | Some z => Some z
      | None => k x
      end
  | Grp n r1 => rmatch r1 (fun y => k (capture n x y)) x
  | Bol => if index x =? 0 then k x else None
  | Eol => match rest x with [] => k x | _ :: _ => None end
  end.

Definition matchAt (r : regex) (pos : nat) (s : str) : option mstate :=
  rmatch r Some (MState pos s []).

(** [s.match(r)] for a regex without the global flag: the leftmost match. *)
Fixpoint search (r : regex) (pos : nat) (s : str) : option mstate :=
  match matchAt r pos s with
  | Some m => Some m
  | None =>
      match s with
      | [] => None
      | _ :: s' => search r (S pos) s'
      end
  end.

Definition jsMatch (r : regex) (s : str) : option mstate := search r 0 s.

(** The successive results of [r.exec(s)] for a regex with the global
    flag, until it returns null: after a match the search resumes at the
    end of the match ([skip] counts the characters still inside it).
    Neither global pattern of the script matches the empty string, so no
    attempt is made at the very end of the input. *)
Fixpoint execAll (r : regex) (pos skip : nat) (s : str) : list mstate :=
  match s with
  | [] => []
  | _ :: s' =>
      match skip with
      | S k => execAll r (S pos) k s'
      | O =>
          match matchAt r pos s with
          | Some m => m :: execAll r (S pos) (index m - pos - 1) s'
          | None => execAll r (S pos) 0 s'
          end
      end
  end.

(** [m[n]]: the text of capture group [n].  Every group of the patterns
    below takes part in every match, so the default is never used. *)
Fixpoint lookupCap (n : nat) (cs : list (nat * str)) : str :=
  match cs with
  | [] => []
  | (i, s) :: cs' => if i =? n then s else lookupCap n cs'
  end.

Definition group (n : nat) (m : mstate) : str := lookupCap n (caps m).

(** Pattern atoms. *)
Definition chr (c : ascii) : regex := Cls (Ascii.eqb c).
(** A literal character under the [i] flag. *)
Definition chrI (c : ascii) : regex :=
  Cls (fun x => Ascii.eqb (upperChar x) (upperChar c)).
Definition litI (s : str) : regex := fold_right (fun c r => Seq (chrI c) r) Eps s.
Definition seqs (rs : list regex) : regex := fold_right Seq Eps rs.
Definition star (r : regex) : regex := Star true r.
Definition lazyStar (r : regex) : regex := Star false r.
Definition plus (r : regex) : regex := Seq r (Star true r).
Definition notIn (cs : str) : regex :=
  Cls (fun x => negb (existsb (Ascii.eqb x) cs)).
Definition ws : regex := Cls isSpace.
Definition notWs : regex := Cls (fun x => negb (isSpace x)).
(** [[^\s...]] : neither white space nor one of [cs]. *)
Definition notWsNor (cs : str) : regex :=
  Cls (fun x => negb (isSpace x || existsb (Ascii.eqb x) cs)).
Definition anyChar : regex := Cls (fun _ => true).

(** ** cleanName *)

(** The four [replace] calls of [cleanName], each with the [g] flag and a
    one-character pattern, then [trim]. *)
Definition stripQuotes (s : str) : str :=
  filter (fun c => negb (existsb (Ascii.eqb c) [dq; "`"; "["; "]"]%char)) s.

Definition dotsToUnderscore (s : str) : str :=
  map (fun c => if Ascii.eqb c "." then "_"%char else c) s.

Definition hashToNum (s : str) : str :=
  flat_map (fun c => if Ascii.eqb c "#" then ("_NUM" : str) else [c]) s.

Definition otherToUnderscore (s : str) : str :=
  map (fun c => if isWord c then c else "_"%char) s.

Definition cleanName (name : str) : str :=
  trim (otherToUnderscore (hashToNum (dotsToUnderscore (stripQuotes name)))).

(** ** simplifyDataType *)

Inductive DataType : Type := STRING | NUMBER | DATE | LOB | OTHER.

Definition simplifyDataType (dataType : str) : DataType :=
  let type := toUpperCase dataType in
  if includes "VARCHAR" type || includes "CHAR" type then STRING
  else if includes "NUMBER" type || includes "INTEGER" type
          || includes "DECIMAL" type then NUMBER
  else if includes "DATE" type || includes "TIMESTAMP" type then DATE
  else if includes "CLOB" type || includes "BLOB" type then LOB
  else OTHER.

Definition typeName (t : DataType) : str :=
  match t with
  | STRING => "STRING"
  | NUMBER => "NUMBER"
  | DATE => "DATE"
  | LOB => "LOB"
  | OTHER => "OTHER"
  end.

(** ** The patterns of the script *)

(** CREATE, white space, TABLE, white space, group 1: the name (no white
    space, no opening parenthesis), optional white space, an opening
    parenthesis, group 2: the body (any characters, lazy), a closing
    parenthesis, an optional tail (white space, then anything but a
    semicolon), a semicolon.  Flags g and i. *)
Definition createTableRegex : regex :=
  seqs [ litI "CREATE"; plus ws; litI "TABLE"; plus ws;
         Grp 1 (plus (notWsNor "("));
         star ws; chr "(";
         Grp 2 (lazyStar anyChar);
         chr ")";
         Opt (Seq (star ws) (star (notIn ";")));
         chr ";" ].

(** ALTER TABLE name ADD CONSTRAINT ... FOREIGN KEY (cols) REFERENCES
    target (cols).  Flags g and i. *)
Definition alterConstraintRegex : regex :=
  seqs [ litI "ALTER"; plus ws; litI "TABLE"; plus ws;
         Grp 1 (plus notWs);
         plus ws; litI "ADD"; plus ws; litI "CONSTRAINT";
         star (notIn ";");
         litI "FOREIGN"; plus ws; litI "KEY"; star ws; chr "(";
         Grp 2 (plus (notIn ")"));
         chr ")"; plus ws; litI "REFERENCES"; plus ws;
         Grp 3 (plus (notWsNor "("));
         star ws; chr "(";
         Grp 4 (plus (notIn ")"));
         chr ")" ].

(** PRIMARY KEY (cols).  Flag i. *)
Definition pkRegex : regex :=
  seqs [ litI "PRIMARY"; plus ws; litI "KEY"; star ws; chr "(";
         Grp 1 (plus (notIn ")"));
         chr ")" ].

(** FOREIGN KEY (cols) REFERENCES target (cols).  Flag i. *)
Definition fkRegex : regex :=
  seqs [ litI "FOREIGN"; plus ws; litI "KEY"; star ws; chr "(";
         Grp 1 (plus (notIn ")"));
         chr ")"; plus ws; litI "REFERENCES"; plus ws;
         Grp 2 (plus (notWsNor "("));
         star ws; chr "(";
         Grp 3 (plus (notIn ")"));
         chr ")" ].

(** Start of line, white space, group 1: the first token, white space,
    group 2: the second token up to white space, comma or opening
    parenthesis, then an optional parenthesised qualifier. *)
Definition columnRegex : regex :=
  seqs [ Bol; star ws;
         Grp 1 (plus notWs);
         plus ws;
         Grp 2 (plus (notWsNor ",("));
         Opt (seqs [ chr "("; star (notIn ")"); chr ")" ]) ].

(** A line of white space only. *)
Definition blankRegex : regex := seqs [ Bol; star ws; Eol ].

(** Digits followed by a closing parenthesis, the whole name. *)
Definition digitsParenRegex : regex :=
  seqs [ Bol; plus (Cls isDigit); chr ")"; Eol ].

Definition isSome {A : Type} (o : option A) : bool :=
  match o with Some _ => true | None => false end.

Definition nonEmpty (s : str) : bool :=
  match s with [] => false | _ :: _ => true end.

(** ** Data model *)

Record Column : Type := mkColumn {
  name : str;
  type : DataType;
  isPrimaryKey : bool;
  isNotNull : bool
}.

(** A constraint record; the script only ever builds the kind PK. *)
Record Constraint : Type := mkConstraint {
  ctype : str;
  ccolumns : list str
}.

Record TableInfo : Type := mkTableInfo {
  columns : list Column;
  constraints : list Constraint
}.

Record Relationship : Type := mkRelationship {
  from : str;
  to : str;
  fromColumns : list str;
  toColumns : list str
}.

Definition TableMap := list (str * TableInfo).

Record Schema : Type := mkSchema {
  tables : TableMap;
  relationships : list Relationship
}.

(** [Map.prototype.set]: a key already present keeps its place and takes
    the new value; a new key goes to the end. *)
Fixpoint mapSet (k : str) (v : TableInfo) (m : TableMap) : TableMap :=
  match m with
  | [] => [(k, v)]
  | (k', v') :: m' =>
      if strEq k' k then (k, v) :: m' else (k', v') :: mapSet k v m'
  end.

(** [Map.prototype.has] *)
Definition mapHas (k : str) (m : TableMap) : bool :=
  existsb (fun e => strEq (fst e) k) m.

(** ** Splitting a table body on top-level commas *)

Record SplitState : Type := mkSplit {
  lines : list str;
  currentLine : str;
  parenthesesCount : Z
}.

Definition splitStep (st : SplitState) (char : ascii) : SplitState :=
  let currentLine := currentLine st ++ [char] in
  let count := parenthesesCount st in
  let count := if Ascii.eqb char "(" then (count + 1)%Z else count in
  let count := if Ascii.eqb char ")" then (count - 1)%Z else count in
  if Ascii.eqb char "," && (count =? 0)%Z
  then mkSplit (lines st ++ [trim (removelast currentLine)]) [] count
  else mkSplit (lines st) currentLine count.

Definition splitBody (tableDefinition : str) : list str :=
  let st := fold_left splitStep tableDefinition (mkSplit [] [] 0%Z) in
  if nonEmpty (trim (currentLine st))
  then lines st ++ [trim (currentLine st)]
  else lines st.

(** ** Classifying the members of a body *)

Definition namesOf (cols : str) : list str :=
  map (fun col => cleanName (trim col)) (split "," cols).

(** The rejection test on a candidate column name. *)
Definition rejected (columnName : str) : bool :=
  strEq (toUpperCase columnName) "PARTITION"
  || includes ")" columnName
  || isSome (jsMatch digitsParenRegex columnName)
  || strEq (toUpperCase columnName) "PRIMARY"
  || strEq (toUpperCase columnName) "KEY"
  || (length columnName =? 0).

(** What the loop over the members accumulates: the columns and
    constraints of the table being read, and the global relationships. *)
Record BodyState : Type := mkBody {
  bColumns : list Column;
  bConstraints : list Constraint;
  bRelationships : list Relationship
}.

Definition isConstraintLine (line : str) : bool :=
  includes "CONSTRAINT" (toUpperCase line).

Definition processLine (tableName : str) (st : BodyState) (line0 : str)
  : BodyState :=
  let line := trim line0 in
  if negb (nonEmpty line) || isSome (jsMatch blankRegex line) then st
  else if isConstraintLine line then
    if includes "PRIMARY KEY" (toUpperCase line) then
      match jsMatch pkRegex line with
      | Some pkMatch =>
          let pkColumns := namesOf (group 1 pkMatch) in
          mkBody (bColumns st)
                 (bConstraints st ++ [mkConstraint "PK" pkColumns])
                 (bRelationships st)
      | None => st
      end
    else if includes "FOREIGN KEY" (toUpperCase line) then
      match jsMatch fkRegex line with
      | Some fkMatch =>
          let fkColumns := namesOf (group 1 fkMatch) in
          let refTable := cleanName (group 2 fkMatch) in
          let refColumns := namesOf (group 3 fkMatch) in
          mkBody (bColumns st) (bConstraints st)
                 (bRelationships st ++
                    [mkRelationship tableName refTable fkColumns refColumns])
      | None => st
      end
    else st
  else
    match jsMatch columnRegex line with
    | Some columnMatch =>
        let columnName := cleanName (group 1 columnMatch) in
        if rejected columnName then st
        else
          let dataType := simplifyDataType (group 2 columnMatch) in
          let isPrimaryKey := includes "PRIMARY KEY" (toUpperCase line) in
          let isNotNull :=
            includes "NOT NULL" (toUpperCase line) && negb isPrimaryKey in
          mkBody (bColumns st ++
                    [mkColumn columnName dataType isPrimaryKey isNotNull])
                 (bConstraints st) (bRelationships st)
    | None => st
    end.

(** The body of the loop over the CREATE TABLE matches. *)
Definition processBody (tableName tableDefinition : str)
  (rels : list Relationship) : BodyState :=
  fold_left (processLine tableName) (splitBody tableDefinition)
            (mkBody [] [] rels).

Definition processCreate (s : Schema) (m : mstate) : Schema :=
  let tableName := cleanName (group 1 m) in
  let tableDefinition := group 2 m in
  let b := processBody tableName tableDefinition (relationships s) in
  if 0 <? length (bColumns b)
  then mkSchema (mapSet tableName (mkTableInfo (bColumns b) (bConstraints b))
                        (tables s))
                (bRelationships b)
  else mkSchema (tables s) (bRelationships b).

(** The body of the loop over the ALTER TABLE matches. *)
Definition processAlter (s : Schema) (m : mstate) : Schema :=
  let fromTable := cleanName (group 1 m) in
  let fromColumns := namesOf (group 2 m) in
  let toTable := cleanName (group 3 m) in
  let toColumns := namesOf (group 4 m) in
  mkSchema (tables s)
           (relationships s ++
              [mkRelationship fromTable toTable fromColumns toColumns]).

(** The two scanning loops of the script, in order. *)
Definition scanCreate (sql : str) (s : Schema) : Schema :=
  fold_left processCreate (execAll createTableRegex 0 0 sql) s.

Definition scanAlter (sql : str) (s : Schema) : Schema :=
  fold_left processAlter (execAll alterConstraintRegex 0 0 sql) s.

Definition buildSchema (sql : str) : Schema :=
  scanAlter sql (scanCreate sql (mkSchema [] [])).

(** ** Rendering *)

(** [for (const x of xs) { acc += ... }] *)
Definition forEach {A : Type} (xs : list A) (body : str -> A -> str)
  (acc : str) : str :=
  fold_left body xs acc.

(** [arr.slice(start, end)] for 0 <= start <= end. *)
Definition slice {A : Type} (start stop : nat) (xs : list A) : list A :=
  firstn (stop - start) (skipn start xs).

(** [Math.ceil(a / b)]; exact for array lengths. *)
Definition ceilDiv (a b : nat) : nat :=
  if a mod b =? 0 then a / b else S (a / b).

(** One column line of a diagram block. *)
Definition columnLine (column : Column) : str :=
  let cleanColumnName := cleanName (name column) in
  let columnDef := "        " ++ typeName (type column) ++ " " ++ cleanColumnName in
  let columnDef := if isPrimaryKey column then columnDef ++ " PK" else columnDef in
  let columnDef :=
    if isNotNull column && negb (isPrimaryKey column)
    then columnDef ++ (" " ++ [dq] ++ "NOT NULL" ++ [dq]) else columnDef in
  columnDef ++ [nl].

(** The loop that adds one block per table to a diagram. *)
Definition tableBlocks (tablesArray : TableMap) (mermaid : str) : str :=
  forEach tablesArray (fun mermaid e =>
    let cleanTableName := cleanName (fst e) in
    let mermaid := mermaid ++ ("    " ++ cleanTableName ++ " {" ++ [nl]) in
    let mermaid :=
      forEach (columns (snd e)) (fun mermaid column =>
        mermaid ++ columnLine column) mermaid in
    mermaid ++ ("    }" ++ [nl; nl])) mermaid.

(** The diagram line of a relationship. *)
Definition relationLine (rel : Relationship) : str :=
  let cleanFromTable := cleanName (from rel) in
  let cleanToTable := cleanName (to rel) in
  "    " ++ cleanFromTable ++ " ||--o{ " ++ cleanToTable
  ++ " : " ++ [dq] ++ "references" ++ [dq] ++ [nl].

(** A row of a relationship table. *)
Definition relationRow (rel : Relationship) : str :=
  "| " ++ from rel ++ " | " ++ join ", " (fromColumns rel) ++ " | "
  ++ to rel ++ " | " ++ join ", " (toColumns rel) ++ " |" ++ [nl].

Definition relationHeader : str :=
  "| Tabla Origen | Columna(s) | Tabla Destino | Columna(s) |" ++ [nl]
  ++ "|--------------|------------|---------------|------------|" ++ [nl].

(** The loop that lists every relationship in a table. *)
Definition relationRows (rels : list Relationship) (content : str) : str :=
  forEach rels (fun content rel => content ++ relationRow rel) content.

(** A row of the per-table column listing. *)
Definition columnRow (column : Column) : str :=
  let characteristics : list str := [] in
  let characteristics :=
    if isPrimaryKey column then characteristics ++ [("PK" : str)]
    else characteristics in
  let characteristics :=
    if isNotNull column then characteristics ++ [("NOT NULL" : str)]
    else characteristics in
  "| " ++ name column ++ " | " ++ typeName (type column)
  ++ " | " ++ join ", " characteristics ++ " |" ++ [nl].

(** The per-table column listing. *)
Definition tableListing (tablesArray : TableMap) (content : str) : str :=
  forEach tablesArray (fun content e =>
    let content := content ++ ("### " ++ fst e ++ [nl; nl]) in
    let content :=
      content ++ ("| Columna | Tipo | Características |" ++ [nl]) in
    let content :=
      content ++ ("|---------|------|----------------|" ++ [nl]) in
    let content :=
      forEach (columns (snd e)) (fun content column =>
        content ++ columnRow column) content in
    content ++ [nl]) content.

Definition File : Type := (str * str)%type.

Section Render.

(** The environment of a run: the two [new Date().toLocaleString] texts
    are taken to be one and the same, [inputFile] and [outputFile] are
    the command-line arguments and [outputBaseName] is
    [path.basename(outputFile, '.md')]. *)
Variable timestamp : str.
Variable inputFile : str.
Variable outputFile : str.
Variable outputBaseName : str.

Variable tables_ : TableMap.
Variable relationships_ : list Relationship.

(** The relationship loop of the single diagram. *)
Definition relationLines (mermaid : str) : str :=
  forEach relationships_ (fun mermaid rel =>
    if mapHas (from rel) tables_ && mapHas (to rel) tables_
    then mermaid ++ relationLine rel
    else mermaid) mermaid.

(** The relationship loop of a partition: the diagram text and the
    relationships kept for the partition's own table. *)
Definition partitionRelationLines (partitionTableNames : list str)
  (acc : str * list Relationship) : str * list Relationship :=
  fold_left (fun acc rel =>
    if existsb (strEq (from rel)) partitionTableNames
       && existsb (strEq (to rel)) partitionTableNames
    then (fst acc ++ relationLine rel, snd acc ++ [rel])
    else acc) relationships_ acc.

Definition partitionFileName (i : nat) : str :=
  outputBaseName ++ "_parte_" ++ dec (i + 1) ++ ".md".

(** The document of partition [i], with the relationships it shows. *)
Definition partitionDocument (totalPartitions i startIndex endIndex : nat)
  (partitionTables : TableMap) : str * list Relationship :=
  let c : str :=
    "# DER - Partición " ++ dec (i + 1) ++ " de " ++ dec totalPartitions
    ++ [nl; nl] in
  let c := c ++ ("**Tablas:** " ++ dec (startIndex + 1) ++ " - "
                 ++ dec endIndex ++ " (" ++ dec (length partitionTables)
                 ++ " tablas)  " ++ [nl]) in
  let c := c ++ ("**Archivo:** " ++ partitionFileName i ++ "  " ++ [nl]) in
  let c := c ++ ("**Generado el:** " ++ timestamp ++ "  " ++ [nl; nl]) in
  let c := c ++ ("## Navegación" ++ [nl; nl]) in
  let c :=
    if 0 <? i
    then c ++ ("⬅️ [Partición anterior (" ++ dec i ++ ")]("
               ++ outputBaseName ++ "_parte_" ++ dec i ++ ".md)  " ++ [nl])
    else c in
  let c := c ++ ("🏠 [Índice principal](" ++ outputBaseName
                 ++ "_index.md)  " ++ [nl]) in
  let c :=
    if i <? totalPartitions - 1
    then c ++ ("➡️ [Partición siguiente (" ++ dec (i + 2) ++ ")]("
               ++ outputBaseName ++ "_parte_" ++ dec (i + 2) ++ ".md)  "
               ++ [nl])
    else c in
  let c := c ++ [nl] in
  let c := c ++ ("## Diagrama" ++ [nl; nl]) in
  let c := c ++ ("```mermaid" ++ [nl]) in
  let c := c ++ ("erDiagram" ++ [nl]) in
  let c := tableBlocks partitionTables c in
  let partitionTableNames := map fst partitionTables in
  let '(c, partitionRelationships) :=
    partitionRelationLines partitionTableNames (c, []) in
  let c := c ++ ("```" ++ [nl; nl]) in
  let c := c ++ ("## Tablas en esta Partición" ++ [nl; nl]) in
  let c := tableListing partitionTables c in
  let c :=
    if 0 <? length partitionRelationships
    then
      let c := c ++ ("## Relaciones en esta Partición" ++ [nl; nl]) in
      let c := c ++ relationHeader in
      let c := relationRows partitionRelationships c in
      c ++ [nl]
    else c in
  let c := c ++ ("---" ++ [nl; nl]) in
  let c := c ++ ("*Partición " ++ dec (i + 1) ++ " de " ++ dec totalPartitions
                 ++ " - Generado automáticamente por generate_der.js*"
                 ++ [nl]) in
  (c, partitionRelationships).

(** One turn of the partition loop: the partition file is written and
    its entry is added to the index. *)
Definition partitionStep (tablesArray : TableMap) (totalPartitions : nat)
  (acc : str * list File) (i : nat) : str * list File :=
  let partitionSize := 50 in
  let startIndex := i * partitionSize in
  let endIndex := Nat.min (startIndex + partitionSize) (length tablesArray) in
  let partitionTables := slice startIndex endIndex tablesArray in
  let '(partitionContent, partitionRelationships) :=
    partitionDocument totalPartitions i startIndex endIndex partitionTables in
  let writes := snd acc ++ [(partitionFileName i, partitionContent)] in
  let indexContent := fst acc in
  let indexContent :=
    indexContent ++ ("### [Partición " ++ dec (i + 1) ++ "]("
                     ++ partitionFileName i ++ ")" ++ [nl]) in
  let indexContent :=
    indexContent ++ ("- **Tablas:** " ++ dec (startIndex + 1) ++ " - "
                     ++ dec endIndex ++ [nl]) in
  let indexContent :=
    indexContent ++ ("- **Cantidad:** " ++ dec (length partitionTables)
                     ++ " tablas" ++ [nl]) in
  let indexContent :=
    indexContent ++ ("- **Relaciones:** "
                     ++ dec (length partitionRelationships)
                     ++ " relaciones internas" ++ [nl]) in
  let indexContent :=
    indexContent ++ ("- **Primeras tablas:** "
                     ++ join ", " (map fst (slice 0 3 partitionTables))
                     ++ (if 3 <? length partitionTables then "..." else "")
                     ++ [nl; nl]) in
  (indexContent, writes).

(** [generatePartitionedDiagrams]: the index text and the partition
    files written on the way. *)
Definition generatePartitionedDiagrams (tablesArray : TableMap)
  : str * list File :=
  let partitionSize := 50 in
  let totalPartitions := ceilDiv (length tablesArray) partitionSize in
  let indexContent : str :=
    "# Índice de Diagramas DER - Base de Datos" ++ [nl; nl] in
  let indexContent :=
    indexContent ++ ("**Generado el:** " ++ timestamp ++ "  " ++ [nl]) in
  let indexContent :=
    indexContent ++ ("**Total de tablas:** " ++ dec (length tablesArray)
                     ++ "  " ++ [nl]) in
  let indexContent :=
    indexContent ++ ("**Total de relaciones:** "
                     ++ dec (length relationships_) ++ "  " ++ [nl]) in
  let indexContent :=
    indexContent ++ ("**Particiones generadas:** " ++ dec totalPartitions
                     ++ "  " ++ [nl; nl]) in
  let indexContent :=
    indexContent ++ ("## Particiones Disponibles" ++ [nl; nl]) in
  let '(indexContent, writes) :=
    fold_left (partitionStep tablesArray totalPartitions)
              (seq 0 totalPartitions) (indexContent, []) in
  let indexContent := indexContent ++ ("## Resumen Completo" ++ [nl; nl]) in
  let indexContent :=
    indexContent ++ ("### Todas las Relaciones" ++ [nl; nl]) in
  let indexContent :=
    if 0 <? length relationships_
    then
      let indexContent := indexContent ++ relationHeader in
      let indexContent := relationRows relationships_ indexContent in
      indexContent ++ [nl]
    else indexContent in
  let indexContent := indexContent ++ ("---" ++ [nl; nl]) in
  let indexContent :=
    indexContent
    ++ ("*Índice generado automáticamente por generate_der.js*" ++ [nl]) in
  (indexContent, writes).

(** [generateMermaidDiagram]: the returned text and the files written. *)
Definition generateMermaidDiagram : str * list File :=
  let tablesArray := tables_ in
  let totalTables := length tablesArray in
  if 100 <? totalTables then generatePartitionedDiagrams tablesArray
  else
    let mermaid : str := "erDiagram" ++ [nl] in
    let mermaid := tableBlocks tablesArray mermaid in
    let mermaid := relationLines mermaid in
    (mermaid, []).

(** [generateMarkdownContent] *)
Definition generateMarkdownContent : str * list File :=
  let tableCount := length tables_ in
  let relationshipCount := length relationships_ in
  if 100 <? tableCount then generateMermaidDiagram
  else
    let content : str :=
      "# Diagrama de Entidad-Relación (DER)" ++ [nl; nl] in
    let content :=
      content ++ ("**Generado el:** " ++ timestamp ++ "  " ++ [nl]) in
    let content :=
      content ++ ("**Archivo fuente:** " ++ inputFile ++ "  " ++ [nl]) in
    let content :=
      content ++ ("**Tablas encontradas:** " ++ dec tableCount ++ "  "
                  ++ [nl]) in
    let content :=
      content ++ ("**Relaciones encontradas:** " ++ dec relationshipCount
                  ++ "  " ++ [nl; nl]) in
    let content := content ++ ("## Diagrama" ++ [nl; nl]) in
    let content := content ++ ("```mermaid" ++ [nl]) in
    let '(mermaid, writes) := generateMermaidDiagram in
    let content := content ++ mermaid in
    let content := content ++ ("```" ++ [nl; nl]) in
    let content := content ++ ("## Tablas" ++ [nl; nl]) in
    let content := tableListing tables_ content in
    let content :=
      if 0 <? length relationships_
      then
        let content := content ++ ("## Relaciones" ++ [nl; nl]) in
        let content := content ++ relationHeader in
        let content := relationRows relationships_ content in
        content ++ [nl]
      else content in
    let content := content ++ ("---" ++ [nl; nl]) in
    let content :=
      content ++ ("*Generado automáticamente por generate_der.js*" ++ [nl]) in
    (content, writes).

(** The end of the script: nothing is written for an empty schema;
    otherwise the files of the partitions and then either the index or
    the single document. *)
Definition writeOutput : list File :=
  if length tables_ =? 0 then []
  else
    let '(markdownContent, writes) := generateMarkdownContent in
    if 100 <? length tables_
    then writes ++ [(outputBaseName ++ "_index.md", markdownContent)]
    else writes ++ [(outputFile, markdownContent)].

End Render.

(** The whole script on the text of a dump. *)
Definition main (timestamp inputFile outputFile outputBaseName sql : str)
  : list File :=
  let s := buildSchema sql in
  writeOutput timestamp inputFile outputFile outputBaseName
              (tables s) (relationships s).

(** ** Notions used to state the properties *)

(** A string of letters, digits and underscores. *)
Definition wordOnly (s : str) : Prop := Forall (fun c => isWord c = true) s.

(** Case analysis on the 256 characters. *)
Ltac by_cases_on_char c :=
  destruct c as [[] [] [] [] [] [] [] []]; vm_compute; congruence.

(** The splitter as the specification words it: the running count of
    opening minus closing parentheses, scanned from the start of the
    body; a comma is top-level when that count is zero at the comma; the
    members are the pieces of the body between top-level commas. *)
Definition depthAfter (d : Z) (c : ascii) : Z :=
  if Ascii.eqb c "(" then (d + 1)%Z
  else if Ascii.eqb c ")" then (d - 1)%Z
  else d.

Definition topLevelComma (d : Z) (c : ascii) : bool :=
  Ascii.eqb c "," && (d =? 0)%Z.

Fixpoint topLevelCommas (d : Z) (s : str) : nat :=
  match s with
  | [] => 0
  | c :: s' =>
      (if topLevelComma d c then 1 else 0)
      + topLevelCommas (depthAfter d c) s'
  end.

Fixpoint topLevelMembers (d : Z) (s : str) : list str :=
  match s with
  | [] => [[]]
  | c :: s' =>
      if topLevelComma d c then [] :: topLevelMembers (depthAfter d c) s'
      else match topLevelMembers (depthAfter d c) s' with
           | h :: t => (c :: h) :: t
           | [] => [[c]]
           end
  end.

(** The text after the last top-level comma. *)
Definition lastMember (s : str) : str := last (topLevelMembers 0 s) [].

(** The first piece of [segs] with [cur] put in front of it. *)
Definition prepend (cur : str) (segs : list str) : list str :=
  match segs with
  | h :: t => (cur ++ h) :: t
  | [] => [cur]
  end.

(** What one member adds to the columns, to the constraints and to the
    relationships: [processLine] run on empty accumulators. *)
Definition columnsOfLine (line : str) : list Column :=
  bColumns (processLine [] (mkBody [] [] []) line).

Definition constraintsOfLine (line : str) : list Constraint :=
  bConstraints (processLine [] (mkBody [] [] []) line).

Definition relationshipsOfLine (tableName line : str) : list Relationship :=
  bRelationships (processLine tableName (mkBody [] [] []) line).

(** A column that passed the rejection rule, under a canonical name. *)
Definition validColumn (c : Column) : Prop :=
  rejected (name c) = false /\ wordOnly (name c).

(** A table the schema may hold: at least one column, all of them valid. *)
Definition validTable (e : str * TableInfo) : Prop :=
  columns (snd e) <> [] /\ Forall validColumn (columns (snd e)).

(** What holds of the table map all along the scan. *)
Definition schemaInvariant (s : Schema) : Prop :=
  Forall validTable (tables s) /\ NoDup (map fst (tables s)).

(** The inputs of the examples. *)
Definition empStatement : str :=
  "CREATE TABLE EMP (ID NUMBER PRIMARY KEY, NAME VARCHAR(50) NOT NULL);".

Definition ordStatement : str :=
  "CREATE TABLE ORD (ID NUMBER, EMP_ID NUMBER, FOREIGN KEY (EMP_ID) REFERENCES EMP(ID));".

Definition ordPlainStatement : str :=
  "CREATE TABLE ORD (ID NUMBER, EMP_ID NUMBER);".

Definition ordAlterStatement : str :=
  "ALTER TABLE ORD ADD CONSTRAINT FK_ORD_EMP FOREIGN KEY (EMP_ID) REFERENCES EMP(ID);".

Definition ordEmpLine : str :=
  "ORD ||--o{ EMP : " ++ [dq] ++ "references" ++ [dq].

(** The diagram text of a schema small enough for a single document. *)
Definition diagramOf (s : Schema) : str :=
  fst (generateMermaidDiagram [] [] (tables s) (relationships s)).

(** [x] occurs in [s] as a contiguous piece. *)
Definition occursIn (x s : str) : Prop := exists pre post, s = pre ++ x ++ post.

Definition prefixOf (x s : str) : Prop := exists post, s = x ++ post.

(** The tables of partition [i] and the bounds of its slice. *)
Definition chunkStart (i : nat) : nat := i * 50.
Definition chunkEnd (i : nat) (ts : TableMap) : nat :=
  Nat.min (chunkStart i + 50) (length ts).
Definition chunk (i : nat) (ts : TableMap) : TableMap :=
  slice (chunkStart i) (chunkEnd i ts) ts.

(** ** The documents in closed form *)

(** The tests of the two relationship loops: both end tables are keys of
    the table map, or both are among the names of a chunk. *)
Definition bothExist (ts : TableMap) (rel : Relationship) : bool :=
  mapHas (from rel) ts && mapHas (to rel) ts.

Definition bothIn (names : list str) (rel : Relationship) : bool :=
  existsb (strEq (from rel)) names && existsb (strEq (to rel)) names.

(** The diagram line that joins the tables drawn as [a] and [b], and the
    line of a relationship. *)
Definition drawnLine (a b : str) : str :=
  "    " ++ a ++ " ||--o{ " ++ b ++ " : " ++ [dq] ++ "references" ++ [dq]
  ++ [nl].

Definition lineOf (rel : Relationship) : str :=
  drawnLine (cleanName (from rel)) (cleanName (to rel)).

(** The row of a relationship in a relationship table, and the table:
    its two heading lines, one row per relationship, an empty line. *)
Definition rowOf (rel : Relationship) : str :=
  "| " ++ from rel ++ " | " ++ join ", " (fromColumns rel) ++ " | "
  ++ to rel ++ " | " ++ join ", " (toColumns rel) ++ " |" ++ [nl].

Definition relationTable (rels : list Relationship) : str :=
  "| Tabla Origen | Columna(s) | Tabla Destino | Columna(s) |" ++ [nl]
  ++ "|--------------|------------|---------------|------------|" ++ [nl]
  ++ concat (map rowOf rels) ++ [nl].

(** The line of a column in a diagram block, with its marks, and its
    row in a listing. *)
Definition drawnColumn (c : Column) : str :=
  "        " ++ typeName (type c) ++ " " ++ cleanName (name c)
  ++ (if isPrimaryKey c then " PK" else "")
  ++ (if isNotNull c && negb (isPrimaryKey c)
      then " " ++ [dq] ++ "NOT NULL" ++ [dq] else [])
  ++ [nl].

Definition listedColumn (c : Column) : str :=
  "| " ++ name c ++ " | " ++ typeName (type c) ++ " | "
  ++ join ", " ((if isPrimaryKey c then [("PK" : str)] else [])
                ++ (if isNotNull c then [("NOT NULL" : str)] else []))
  ++ " |" ++ [nl].

(** The block of a table in a diagram and its section in a listing. *)
Definition blockOf (e : str * TableInfo) : str :=
  "    " ++ cleanName (fst e) ++ " {" ++ [nl]
  ++ concat (map drawnColumn (columns (snd e)))
  ++ "    }" ++ [nl; nl].

Definition listingOf (e : str * TableInfo) : str :=
  "### " ++ fst e ++ [nl; nl]
  ++ "| Columna | Tipo | Características |" ++ [nl]
  ++ "|---------|------|----------------|" ++ [nl]
  ++ concat (map listedColumn (columns (snd e)))
  ++ [nl].

(** The name of the file of partition [i]. *)
Definition partName (outputBaseName : str) (i : nat) : str :=
  outputBaseName ++ "_parte_" ++ dec (i + 1) ++ ".md".

(** A diagram: the blocks of the tables [ts], then the lines of the
    relationships [shown]; and the diagram between its fences. *)
Definition diagramText (ts : TableMap) (shown : list Relationship) : str :=
  "erDiagram" ++ [nl] ++ concat (map blockOf ts) ++ concat (map lineOf shown).

Definition fenced (diagram : str) : str :=
  "```mermaid" ++ [nl] ++ diagram ++ "```" ++ [nl; nl].

(** The single document of the tables [ts], with the lines of [shown] in
    its diagram and the rows of [rels] in its relationship table. *)
Definition singleDocument (timestamp inputFile : str) (ts : TableMap)
  (shown rels : list Relationship) : str :=
  "# Diagrama de Entidad-Relación (DER)" ++ [nl; nl]
  ++ "**Generado el:** " ++ timestamp ++ "  " ++ [nl]
  ++ "**Archivo fuente:** " ++ inputFile ++ "  " ++ [nl]
  ++ "**Tablas encontradas:** " ++ dec (length ts) ++ "  " ++ [nl]
  ++ "**Relaciones encontradas:** " ++ dec (length rels) ++ "  " ++ [nl; nl]
  ++ "## Diagrama" ++ [nl; nl]
  ++ fenced (diagramText ts shown)
  ++ "## Tablas" ++ [nl; nl]
  ++ concat (map listingOf ts)
  ++ (if 0 <? length rels
      then "## Relaciones" ++ [nl; nl] ++ relationTable rels
      else [])
  ++ "---" ++ [nl; nl]
  ++ "*Generado automáticamente por generate_der.js*" ++ [nl].

(** The document of partition [i] of [total], for the tables [part],
    which are those from [start + 1] to [stop], with the lines and the
    rows of [shown]. *)
Definition partitionText (timestamp outputBaseName : str)
  (total i start stop : nat) (part : TableMap) (shown : list Relationship)
  : str :=
  "# DER - Partición " ++ dec (i + 1) ++ " de " ++ dec total ++ [nl; nl]
  ++ "**Tablas:** " ++ dec (start + 1) ++ " - " ++ dec stop ++ " ("
  ++ dec (length part) ++ " tablas)  " ++ [nl]
  ++ "**Archivo:** " ++ partName outputBaseName i ++ "  " ++ [nl]
  ++ "**Generado el:** " ++ timestamp ++ "  " ++ [nl; nl]
  ++ "## Navegación" ++ [nl; nl]
  ++ (if 0 <? i
      then "⬅️ [Partición anterior (" ++ dec i ++ ")](" ++ outputBaseName
           ++ "_parte_" ++ dec i ++ ".md)  " ++ [nl]
      else [])
  ++ "🏠 [Índice principal](" ++ outputBaseName ++ "_index.md)  " ++ [nl]
  ++ (if i <? total - 1
      then "➡️ [Partición siguiente (" ++ dec (i + 2) ++ ")](" ++ outputBaseName
           ++ "_parte_" ++ dec (i + 2) ++ ".md)  " ++ [nl]
      else [])
  ++ [nl]
  ++ "## Diagrama" ++ [nl; nl]
  ++ fenced (diagramText part shown)
  ++ "## Tablas en esta Partición" ++ [nl; nl]
  ++ concat (map listingOf part)
  ++ (if 0 <? length shown
      then "## Relaciones en esta Partición" ++ [nl; nl] ++ relationTable shown
      else [])
  ++ "---" ++ [nl; nl]
  ++ "*Partición " ++ dec (i + 1) ++ " de " ++ dec total
  ++ " - Generado automáticamente por generate_der.js*" ++ [nl].

(** The relationships drawn in partition [i], and the file of the
    partition. *)
Definition chunkShown (ts : TableMap) (rels : list Relationship) (i : nat)
  : list Relationship :=
  filter (bothIn (map fst (chunk i ts))) rels.

Definition partitionFile (timestamp outputBaseName : str) (ts : TableMap)
  (rels : list Relationship) (i : nat) : File :=
  (partName outputBaseName i,
   partitionText timestamp outputBaseName (ceilDiv (length ts) 50) i
                 (chunkStart i) (chunkEnd i ts) (chunk i ts)
                 (chunkShown ts rels i)).

(** The entry of partition [i] in the index, and the index. *)
Definition indexEntry (outputBaseName : str) (ts : TableMap)
  (rels : list Relationship) (i : nat) : str :=
  "### [Partición " ++ dec (i + 1) ++ "](" ++ partName outputBaseName i
  ++ ")" ++ [nl]
  ++ "- **Tablas:** " ++ dec (chunkStart i + 1) ++ " - " ++ dec (chunkEnd i ts)
  ++ [nl]
  ++ "- **Cantidad:** " ++ dec (length (chunk i ts)) ++ " tablas" ++ [nl]
  ++ "- **Relaciones:** " ++ dec (length (chunkShown ts rels i))
  ++ " relaciones internas" ++ [nl]
  ++ "- **Primeras tablas:** " ++ join ", " (map fst (slice 0 3 (chunk i ts)))
  ++ (if 3 <? length (chunk i ts) then "..." else "") ++ [nl; nl].

Definition indexDocument (timestamp outputBaseName : str) (ts : TableMap)
  (rels : list Relationship) : str :=
  "# Índice de Diagramas DER - Base de Datos" ++ [nl; nl]
  ++ "**Generado el:** " ++ timestamp ++ "  " ++ [nl]
  ++ "**Total de tablas:** " ++ dec (length ts) ++ "  " ++ [nl]
  ++ "**Total de relaciones:** " ++ dec (length rels) ++ "  " ++ [nl]
  ++ "**Particiones generadas:** " ++ dec (ceilDiv (length ts) 50) ++ "  "
  ++ [nl; nl]
  ++ "## Particiones Disponibles" ++ [nl; nl]
  ++ concat (map (indexEntry outputBaseName ts rels)
                 (seq 0 (ceilDiv (length ts) 50)))
  ++ "## Resumen Completo" ++ [nl; nl]
  ++ "### Todas las Relaciones" ++ [nl; nl]
  ++ (if 0 <? length rels then relationTable rels else [])
  ++ "---" ++ [nl; nl]
  ++ "*Índice generado automáticamente por generate_der.js*" ++ [nl].

(** Sample schemas: [n] one-column tables T0, T1, ... and two
    relationships, the second one to a table that is never defined when
    [n] is at most 60. *)
Definition sampleTables (n : nat) : TableMap :=
  map (fun i => ("T" ++ dec i, mkTableInfo [mkColumn "ID" NUMBER true false] []))
      (seq 0 n).

Definition sampleRelationships : list Relationship :=
  [ mkRelationship "T1" "T2" [("A" : str)] [("ID" : str)];
    mkRelationship "T1" "T60" [("B" : str)] [("ID" : str)] ].

(** A pattern without capture group. *)
Fixpoint noGroups (r : regex) : bool :=
  match r with
  | Eps | Cls _ | Bol | Eol => true
  | Seq r1 r2 => noGroups r1 && noGroups r2
  | Star _ r1 | Opt r1 => noGroups r1
  | Grp _ _ => false
  end.

(** [y] is reached from [x] by consuming input. *)
Definition reaches (x y : mstate) : Prop :=
  exists pre, rest x = pre ++ rest y /\ index y = index x + length pre.

(** A matcher whose match, followed by [k], ends in a match of [k] at a
    state reached by consuming input, with the captures untouched when
    [plain] holds. *)
Definition continues (mt : (mstate -> option mstate) -> mstate -> option mstate)
  (plain : bool) : Prop :=
  forall k x m, mt k x = Some m ->
    exists y, k y = Some m /\ reaches x y /\ (plain = true -> caps y = caps x).

(** What follows the body in the pattern: the closing parenthesis, then
    the optional tail and the semicolon. *)
Definition tailPattern : regex :=
  Seq (Opt (Seq (star ws) (star (notIn ";")))) (Seq (chr ";") Eps).

Definition afterClose : mstate -> option mstate := rmatch tailPattern Some.

Definition afterBody : mstate -> option mstate := rmatch (chr ")") afterClose.

(** The relationship built from a match of the ALTER TABLE pattern. *)
Definition alterRelationship (m : mstate) : Relationship :=
  mkRelationship (cleanName (group 1 m)) (cleanName (group 3 m))
                 (namesOf (group 2 m)) (namesOf (group 4 m)).

(** A table without constraint record. *)
Definition noConstraints (e : str * TableInfo) : Prop := constraints (snd e) = [].

(** The columns the members of a body add, one member after the other,
    and the Table a CREATE TABLE match registers when they are not
    none. *)
Definition memberColumns (body : str) : list Column :=
  flat_map columnsOfLine (splitBody body).

Definition memberConstraints (body : str) : list Constraint :=
  flat_map constraintsOfLine (splitBody body).

Definition tableOfMatch (m : mstate) : str * TableInfo :=
  (cleanName (group 1 m),
   mkTableInfo (memberColumns (group 2 m)) (memberConstraints (group 2 m))).

(** A Table of the schema was registered by a CREATE TABLE match of the
    dump. *)
Definition registeredBy (sql : str) (e : str * TableInfo) : Prop :=
  exists m, In m (execAll createTableRegex 0 0 sql) /\ e = tableOfMatch m.

(** A member that yields a column. *)
Definition yieldsColumn (line : str) : bool := 0 <? length (columnsOfLine line).

(** The statement of the example on primary keys. *)
Definition pkStatement : str :=
  "CREATE TABLE T (ID NUMBER, CONSTRAINT PK_T PRIMARY KEY (ID));".

(** ** Further notions *)

(** A schema whose names are all canonical: the keys of the table map,
    the column names, and the table and column names of the
    relationships. *)
Definition canonicalTable (e : str * TableInfo) : Prop :=
  wordOnly (fst e) /\ Forall (fun c => wordOnly (name c)) (columns (snd e)).

Definition canonicalRelationship (r : Relationship) : Prop :=
  wordOnly (from r) /\ wordOnly (to r)
  /\ Forall wordOnly (fromColumns r) /\ Forall wordOnly (toColumns r).

(** The captures of a CREATE TABLE match that defines table T again, with
    one column C, and a schema that already holds T and U. *)
Definition redefinitionMatch : mstate :=
  MState 0 [] [(2, ("C DATE" : str)); (1, ("T" : str))].

Definition twoTables : Schema :=
  Eval vm_compute in
    buildSchema "CREATE TABLE T (A NUMBER); CREATE TABLE U (B DATE);".

(** ** extract_create_tables.js *)

(** The companion script, in its two versions: the first copies the
    CREATE TABLE statements of the dump, each up to its semicolon, into
    one file; the second adds the ALTER TABLE, ADD CONSTRAINT and CREATE
    INDEX statements, in sections of their own. *)
Module Extract.

(** [s.match(r)] for a regex with the global flag: the texts of the
    successive matches ([skip] as in [execAll]). *)
Fixpoint matchTexts (r : regex) (pos skip : nat) (s : str) : list str :=
  match s with
  | [] => []
  | _ :: s' =>
      match skip with
      | S k => matchTexts r (S pos) k s'
      | O =>
          match matchAt r pos s with
          | Some m =>
              firstn (index m - pos) s
              :: matchTexts r (S pos) (index m - pos - 1) s'
          | None => matchTexts r (S pos) 0 s'
          end
      end
  end.

(** CREATE TABLE, then anything (lazy) up to a semicolon.  Flags g, i. *)
Definition createTableRegex : regex :=
  seqs [ litI "CREATE"; plus ws; litI "TABLE"; lazyStar anyChar; chr ";" ].

Definition alterTableRegex : regex :=
  seqs [ litI "ALTER"; plus ws; litI "TABLE"; lazyStar anyChar; chr ";" ].

(** ALTER TABLE, a word, ADD CONSTRAINT, then anything up to a semicolon. *)
Definition addConstraintRegex : regex :=
  seqs [ litI "ALTER"; plus ws; litI "TABLE"; plus ws; plus (Cls isWord);
         plus ws; litI "ADD"; plus ws; litI "CONSTRAINT";
         lazyStar anyChar; chr ";" ].

(** CREATE, optionally UNIQUE, INDEX, then anything up to a semicolon. *)
Definition createIndexRegex : regex :=
  seqs [ litI "CREATE"; plus ws; Opt (Seq (litI "UNIQUE") (plus ws));
         litI "INDEX"; lazyStar anyChar; chr ";" ].

(** The first version: nothing is written when the dump has no CREATE
    TABLE statement; otherwise the content of the output file. *)
Definition extractTables (sql : str) : option str :=
  let matches := matchTexts createTableRegex 0 0 sql in
  if length matches =? 0 then None
  else Some (join [nl; nl] matches).

Definition rule : str := "-- ====================================".

(** The lines pushed in front of the statements of a section. *)
Definition heading (title : str) : list str := [rule; title; rule; []].

(** A further section, left out when it has no statement. *)
Definition section (title : str) (statements : list str) : list str :=
  if 0 <? length statements
  then [] :: heading title ++ statements
  else [].

(** The second version. *)
Definition extract (sql : str) : option str :=
  let matches := matchTexts createTableRegex 0 0 sql in
  let alterTableMatches := matchTexts alterTableRegex 0 0 sql in
  let constraintMatches := matchTexts addConstraintRegex 0 0 sql in
  let indexMatches := matchTexts createIndexRegex 0 0 sql in
  if length matches =? 0 then None
  else
    let allStatements := heading "-- CREATE TABLE STATEMENTS" ++ matches in
    let allStatements :=
      allStatements ++ section "-- ALTER TABLE STATEMENTS" alterTableMatches in
    let allStatements :=
      allStatements ++ section "-- CONSTRAINT STATEMENTS" constraintMatches in
    let allStatements :=
      allStatements ++ section "-- INDEX STATEMENTS" indexMatches in
    Some (join [nl; nl] allStatements).

End Extract.

(** The characters a pattern may read. *)
Fixpoint mayRead (r : regex) (c : ascii) : bool :=
  match r with
  | Cls p => p c
  | Seq r1 r2 => mayRead r1 c || mayRead r2 c
  | Star _ r1 | Opt r1 | Grp _ r1 => mayRead r1 c
  | Eps | Bol | Eol => false
  end.

(** A matcher whose match, followed by [k], ends in a match of [k] after
    reading characters that satisfy [ok] only. *)
Definition reads (mt : (mstate -> option mstate) -> mstate -> option mstate)
  (ok : ascii -> bool) : Prop :=
  forall k x m, mt k x = Some m ->
    exists pre y, k y = Some m /\ rest x = pre ++ rest y
                  /\ index y = index x + length pre
                  /\ forallb ok pre = true.


(** Captures whose texts are made of the characters [ok] allows to their
    group. *)
Definition capsWithin (ok : nat -> ascii -> bool) (cs : list (nat * str)) : Prop :=
  Forall (fun e => forallb (ok (fst e)) (snd e) = true) cs.


Definition allSpace (s : str) : bool := forallb isSpace s.

(** A string of [n] underscores. *)
Definition underscores (n : nat) : str := repeat "_"%char n.

(** A statement text: it ends in a semicolon and holds no other. *)
Definition endsAtFirstSemicolon (t : str) : bool :=
  match rev t with
  | c :: body => Ascii.eqb c ";" && negb (existsb (Ascii.eqb ";") body)
  | [] => false
  end.

(** A dump with one statement of each kind, and the file the second
    version of the extraction script writes for it. *)
Definition extractSample : str :=
  "CREATE TABLE T (A NUMBER); ALTER TABLE T ADD CONSTRAINT PK_T PRIMARY KEY (A); CREATE UNIQUE INDEX I ON T (A);".

Definition extractSampleContent : str :=
  Eval vm_compute in
    match Extract.extract extractSample with
    | Some content => content
    | None => []
    end.

(** * Properties *)

(** ** Characters and canonical names *)

Lemma isWord_not_isSpace (c : ascii) : isWord c = true -> isSpace c = false.
Proof. by_cases_on_char c. Qed.

Lemma isWord_not_quote (c : ascii) :
  isWord c = true ->
  existsb (Ascii.eqb c) [dq; "`"; "["; "]"]%char = false.
Proof. by_cases_on_char c. Qed.

Lemma isWord_not_dot (c : ascii) : isWord c = true -> Ascii.eqb c "." = false.
Proof. by_cases_on_char c. Qed.

Lemma isWord_not_hash (c : ascii) : isWord c = true -> Ascii.eqb c "#" = false.
Proof. by_cases_on_char c. Qed.

Lemma dropSpace_wordOnly (s : str) : wordOnly s -> dropSpace s = s.
Proof.
  destruct 1 as [|c s Hc _]; simpl; [reflexivity|].
  now rewrite (isWord_not_isSpace c Hc).
Qed.

Lemma wordOnly_rev (s : str) : wordOnly s -> wordOnly (rev s).
Proof. unfold wordOnly. apply Forall_rev. Qed.

Lemma trim_wordOnly (s : str) : wordOnly s -> trim s = s.
Proof.
  intros H. unfold trim.
  rewrite (dropSpace_wordOnly s H).
  rewrite (dropSpace_wordOnly (rev s) (wordOnly_rev s H)).
  apply rev_involutive.
Qed.

Lemma otherToUnderscore_wordOnly (s : str) : wordOnly (otherToUnderscore s).
Proof.
  unfold wordOnly, otherToUnderscore.
  induction s as [|c s IH]; simpl; constructor; auto.
  destruct (isWord c) eqn:E; [exact E | reflexivity].
Qed.

(** The output of [cleanName] holds letters, digits and underscores only. *)
Lemma cleanName_wordOnly (s : str) : wordOnly (cleanName s).
Proof.
  unfold cleanName.
  rewrite trim_wordOnly; apply otherToUnderscore_wordOnly.
Qed.

Lemma stripQuotes_wordOnly (s : str) : wordOnly s -> stripQuotes s = s.
Proof.
  unfold stripQuotes.
  induction 1 as [|c s Hc _ IH]; cbn [filter]; [reflexivity|].
  rewrite (isWord_not_quote c Hc); cbn [negb]. now rewrite IH.
Qed.

Lemma dotsToUnderscore_wordOnly (s : str) : wordOnly s -> dotsToUnderscore s = s.
Proof.
  unfold dotsToUnderscore.
  induction 1 as [|c s Hc _ IH]; simpl; [reflexivity|].
  rewrite (isWord_not_dot c Hc). now rewrite IH.
Qed.

Lemma hashToNum_wordOnly (s : str) : wordOnly s -> hashToNum s = s.
Proof.
  unfold hashToNum.
  induction 1 as [|c s Hc _ IH]; cbn [flat_map]; [reflexivity|].
  rewrite (isWord_not_hash c Hc). cbn [app]. now rewrite IH.
Qed.

Lemma otherToUnderscore_fixes_wordOnly (s : str) :
  wordOnly s -> otherToUnderscore s = s.
Proof.
  unfold otherToUnderscore.
  induction 1 as [|c s Hc _ IH]; simpl; [reflexivity|].
  rewrite Hc. now rewrite IH.
Qed.

(** [cleanName] leaves a string of letters, digits and underscores as it is. *)
Lemma cleanName_fixes_wordOnly (s : str) : wordOnly s -> cleanName s = s.
Proof.
  intros H. unfold cleanName.
  rewrite (stripQuotes_wordOnly s H), (dotsToUnderscore_wordOnly s H),
    (hashToNum_wordOnly s H), (otherToUnderscore_fixes_wordOnly s H).
  now apply trim_wordOnly.
Qed.

(** C9. The Name Normalizer is idempotent: normalizing a canonical name
    again leaves it unchanged, for every input string. *)
Theorem cleanName_idempotent (s : str) :
  cleanName (cleanName s) = cleanName s.
Proof. apply cleanName_fixes_wordOnly, cleanName_wordOnly. Qed.

(** ** The splitter *)

Lemma topLevelMembers_nonempty (d : Z) (s : str) : topLevelMembers d s <> [].
Proof.
  revert d. induction s as [|c s IH]; intros d; simpl; [discriminate|].
  destruct (topLevelComma d c); [discriminate|].
  destruct (topLevelMembers (depthAfter d c) s); discriminate.
Qed.

Lemma topLevelMembers_length (d : Z) (s : str) :
  length (topLevelMembers d s) = S (topLevelCommas d s).
Proof.
  revert d. induction s as [|c s IH]; intros d; simpl; [reflexivity|].
  specialize (IH (depthAfter d c)).
  destruct (topLevelComma d c); simpl; [now rewrite IH|].
  destruct (topLevelMembers (depthAfter d c) s); simpl in *; lia.
Qed.

Lemma prepend_nil (segs : list str) : segs <> [] -> prepend [] segs = segs.
Proof. destruct segs; [congruence | reflexivity]. Qed.

Lemma removelast_cons {A : Type} (x : A) (l : list A) :
  l <> [] -> removelast (x :: l) = x :: removelast l.
Proof. destruct l; [congruence | reflexivity]. Qed.

Lemma last_cons {A : Type} (x d : A) (l : list A) :
  l <> [] -> last (x :: l) d = last l d.
Proof. destruct l; [congruence | reflexivity]. Qed.

(** The count kept by the loop is the running count of the specification:
    the test after the update sees the same value at a comma. *)
Lemma splitStep_comma (st : SplitState) (c : ascii) :
  topLevelComma (parenthesesCount st) c = true ->
  splitStep st c =
  mkSplit (lines st ++ [trim (currentLine st)]) [] (depthAfter (parenthesesCount st) c).
Proof.
  unfold topLevelComma, splitStep, depthAfter. intros H.
  apply andb_true_iff in H as [Hc Hd].
  apply Ascii.eqb_eq in Hc. subst c. simpl.
  rewrite Hd. now rewrite removelast_last.
Qed.

Lemma splitStep_other (st : SplitState) (c : ascii) :
  topLevelComma (parenthesesCount st) c = false ->
  splitStep st c =
  mkSplit (lines st) (currentLine st ++ [c]) (depthAfter (parenthesesCount st) c).
Proof.
  unfold topLevelComma, splitStep, depthAfter. intros H.
  destruct (Ascii.eqb c ",") eqn:Ec; simpl in H.
  - apply Ascii.eqb_eq in Ec. subst c. simpl. now rewrite H.
  - destruct (Ascii.eqb c "(") eqn:Eo; destruct (Ascii.eqb c ")") eqn:Ecl;
      try reflexivity.
    apply Ascii.eqb_eq in Eo, Ecl. congruence.
Qed.

Lemma splitLoop_members (s : str) : forall ls cur d,
  let st := fold_left splitStep s (mkSplit ls cur d) in
  lines st = ls ++ map trim (removelast (prepend cur (topLevelMembers d s)))
  /\ currentLine st = last (prepend cur (topLevelMembers d s)) [].
Proof.
  induction s as [|c s IH]; intros ls cur d; cbn zeta.
  - simpl. rewrite !app_nil_r. split; reflexivity.
  - cbn [fold_left topLevelMembers].
    destruct (topLevelComma d c) eqn:E.
    + rewrite (splitStep_comma (mkSplit ls cur d) c E). cbn [lines currentLine parenthesesCount].
      destruct (IH (ls ++ [trim cur]) [] (depthAfter d c)) as [Hl Hc].
      rewrite Hl, Hc.
      pose proof (topLevelMembers_nonempty (depthAfter d c) s) as Hne.
      rewrite (prepend_nil _ Hne). cbn [prepend]. rewrite app_nil_r.
      rewrite (removelast_cons _ _ Hne), (last_cons _ _ _ Hne).
      cbn [map]. rewrite <- app_assoc. split; reflexivity.
    + rewrite (splitStep_other (mkSplit ls cur d) c E). cbn [lines currentLine parenthesesCount].
      destruct (IH ls (cur ++ [c]) (depthAfter d c)) as [Hl Hc].
      rewrite Hl, Hc.
      pose proof (topLevelMembers_nonempty (depthAfter d c) s) as Hne.
      destruct (topLevelMembers (depthAfter d c) s) as [|h t]; [congruence|].
      cbn [prepend]. rewrite <- app_assoc. split; reflexivity.
Qed.

(** What [splitBody] returns, in the words of the specification. *)
Lemma splitBody_members (body : str) :
  splitBody body =
  map trim (removelast (topLevelMembers 0 body))
  ++ (if nonEmpty (trim (lastMember body)) then [trim (lastMember body)] else []).
Proof.
  unfold splitBody, lastMember.
  destruct (splitLoop_members body [] [] 0%Z) as [Hl Hc].
  rewrite Hl, Hc.
  rewrite (prepend_nil _ (topLevelMembers_nonempty 0 body)). simpl.
  destruct (nonEmpty _); [reflexivity | now rewrite app_nil_r].
Qed.

(** The members start at depth zero, so a comma inside a member is one
    met at a depth other than zero. *)
Lemma topLevelMembers_join (s : str) : forall d,
  join "," (topLevelMembers d s) = s.
Proof.
  induction s as [|c s IH]; intros d; cbn [topLevelMembers]; [reflexivity|].
  specialize (IH (depthAfter d c)).
  pose proof (topLevelMembers_nonempty (depthAfter d c) s) as Hne.
  destruct (topLevelComma d c) eqn:E.
  - unfold topLevelComma in E. apply andb_true_iff in E as [E _].
    apply Ascii.eqb_eq in E. subst c.
    destruct (topLevelMembers _ s) as [|h t]; [congruence|].
    cbn [join app]. cbn [join] in IH. now rewrite IH.
  - destruct (topLevelMembers _ s) as [|h t]; [congruence|].
    destruct t as [|h' t]; cbn [join app] in *; now rewrite IH.
Qed.

Lemma topLevelMembers_inner (s : str) : forall d,
  match topLevelMembers d s with
  | h :: t => topLevelCommas d h = 0 /\ Forall (fun mb => topLevelCommas 0 mb = 0) t
  | [] => False
  end.
Proof.
  induction s as [|c s IH]; intros d; cbn [topLevelMembers].
  - split; [reflexivity | constructor].
  - specialize (IH (depthAfter d c)).
    destruct (topLevelComma d c) eqn:E.
    + split; [reflexivity|].
      unfold topLevelComma in E. apply andb_true_iff in E as [Ec Ed].
      apply Ascii.eqb_eq in Ec. apply Z.eqb_eq in Ed. subst c d.
      change (depthAfter 0 ",") with 0%Z in *.
      destruct (topLevelMembers 0 s) as [|h t]; [destruct IH|].
      destruct IH as [Hh Ht]. now constructor.
    + destruct (topLevelMembers (depthAfter d c) s) as [|h t]; [destruct IH|].
      destruct IH as [Hh Ht]. split; [|assumption].
      cbn [topLevelCommas]. now rewrite E, Hh.
Qed.

Lemma last_removelast_map {A B : Type} (f : A -> B) (l : list A) (d : A) :
  l <> [] -> map f l = map f (removelast l) ++ [f (last l d)].
Proof.
  intros H. rewrite (app_removelast_last d H) at 1.
  now rewrite map_app.
Qed.

(** C5. For every table body whose text after the last top-level comma is
    not blank, as in every table definition, the splitter returns exactly
    the N top-level comma-separated members of the body, each trimmed, in
    order, N being the number of top-level commas plus one; the members
    put together again with commas give the body, and a comma inside a
    member is never one met at depth zero: a comma inside a nested
    parenthesised group causes no split. *)
Theorem splitBody_member_count (body : str) :
  nonEmpty (trim (lastMember body)) = true ->
  splitBody body = map trim (topLevelMembers 0 body)
  /\ length (splitBody body) = S (topLevelCommas 0 body)
  /\ join "," (topLevelMembers 0 body) = body
  /\ Forall (fun mb => topLevelCommas 0 mb = 0) (topLevelMembers 0 body).
Proof.
  intros H.
  assert (E : splitBody body = map trim (topLevelMembers 0 body)).
  { rewrite splitBody_members, H. unfold lastMember.
    symmetry. apply last_removelast_map, topLevelMembers_nonempty. }
  split; [exact E|]. split; [|split].
  - now rewrite E, length_map, topLevelMembers_length.
  - apply topLevelMembers_join.
  - pose proof (topLevelMembers_inner body 0) as Hi.
    destruct (topLevelMembers 0 body) as [|h t]; [destruct Hi|].
    destruct Hi. now constructor.
Qed.

(** The statement of C5 on the body captured from
    [CREATE TABLE T (A DATE, B NUMBER(10,2));]. *)
Lemma splitBody_member_count_witness :
  map (group 2)
      (execAll createTableRegex 0 0 "CREATE TABLE T (A DATE, B NUMBER(10,2));")
  = [("A DATE, B NUMBER(10,2" : str)]
  /\ splitBody "A DATE, B NUMBER(10,2"
     = [("A DATE" : str); ("B NUMBER(10,2" : str)]
  /\ topLevelCommas 0 "A DATE, B NUMBER(10,2" = 1.
Proof.
  split; [reflexivity|]. split; [|reflexivity].
  exact (proj1 (splitBody_member_count "A DATE, B NUMBER(10,2" eq_refl)).
Defined.

(** When the text after the last top-level comma is blank, as after a
    trailing comma, that last piece is dropped. *)
Lemma splitBody_blank_tail (body : str) :
  nonEmpty (trim (lastMember body)) = false ->
  splitBody body = map trim (removelast (topLevelMembers 0 body)).
Proof. intros H. now rewrite splitBody_members, H, app_nil_r. Qed.

(** ** The members of a body *)

Ltac split_cases :=
  repeat match goal with
  | |- context [if ?b then _ else _] => destruct b eqn:?
  | |- context [match ?o with Some _ => _ | None => _ end] => destruct o eqn:?
  end.

(** [processLine] only ever appends to its three accumulators. *)
Lemma processLine_app (tableName : str) (st : BodyState) (line : str) :
  processLine tableName st line =
  mkBody (bColumns st ++ columnsOfLine line)
         (bConstraints st ++ constraintsOfLine line)
         (bRelationships st ++ relationshipsOfLine tableName line).
Proof.
  unfold columnsOfLine, constraintsOfLine, relationshipsOfLine, processLine.
  cbv zeta. destruct st as [cs ks rs].
  split_cases; cbn [bColumns bConstraints bRelationships app];
    rewrite ?app_nil_r; reflexivity.
Qed.

Lemma processLines_app (tableName : str) (ls : list str) : forall st,
  fold_left (processLine tableName) ls st =
  mkBody (bColumns st ++ flat_map columnsOfLine ls)
         (bConstraints st ++ flat_map constraintsOfLine ls)
         (bRelationships st ++ flat_map (relationshipsOfLine tableName) ls).
Proof.
  induction ls as [|l ls IH]; intros st; cbn [fold_left flat_map].
  - rewrite !app_nil_r. now destruct st.
  - rewrite IH, processLine_app. cbn [bColumns bConstraints bRelationships].
    now rewrite <- !app_assoc.
Qed.

Lemma processBody_parts (tableName body : str) (rels : list Relationship) :
  processBody tableName body rels =
  mkBody (flat_map columnsOfLine (splitBody body))
         (flat_map constraintsOfLine (splitBody body))
         (rels ++ flat_map (relationshipsOfLine tableName) (splitBody body)).
Proof. unfold processBody. now rewrite processLines_app. Qed.

(** A constraint member adds no column. *)
Lemma columnsOfLine_constraint (line : str) :
  isConstraintLine (trim line) = true -> columnsOfLine line = [].
Proof.
  unfold columnsOfLine, processLine. cbv zeta. intros H. rewrite H.
  split_cases; reflexivity.
Qed.

(** A member adds at most one column, a valid one, whose primary-key flag
    says whether the member's own text holds PRIMARY KEY. *)
Lemma columnsOfLine_cases (line : str) :
  columnsOfLine line = [] \/
  exists c, columnsOfLine line = [c] /\ validColumn c
            /\ isConstraintLine (trim line) = false
            /\ isPrimaryKey c = includes "PRIMARY KEY" (toUpperCase (trim line))
            /\ isNotNull c = includes "NOT NULL" (toUpperCase (trim line))
                             && negb (isPrimaryKey c).
Proof.
  unfold columnsOfLine, processLine. cbv zeta.
  destruct (negb (nonEmpty (trim line)) || isSome (jsMatch blankRegex (trim line)));
    [now left|].
  destruct (isConstraintLine (trim line)) eqn:Ec.
  - left. split_cases; reflexivity.
  - destruct (jsMatch columnRegex (trim line)) as [m|]; [|now left].
    destruct (rejected (cleanName (group 1 m))) eqn:Er; [now left|].
    right. eexists. split; [reflexivity|].
    cbn [name isPrimaryKey isNotNull]. repeat split; auto.
    apply cleanName_wordOnly.
Qed.

Lemma columnsOfLine_valid (line : str) : Forall validColumn (columnsOfLine line).
Proof.
  destruct (columnsOfLine_cases line) as [E | (c & E & Hv & _)]; rewrite E;
    repeat constructor; apply Hv.
Qed.

Lemma flat_map_Forall {A B : Type} (P : B -> Prop) (f : A -> list B) (l : list A) :
  (forall x, Forall P (f x)) -> Forall P (flat_map f l).
Proof.
  intros H. induction l as [|x l IH]; simpl; [constructor|].
  apply Forall_app. split; auto.
Qed.

Lemma processBody_columns_valid (tableName body : str) (rels : list Relationship) :
  Forall validColumn (bColumns (processBody tableName body rels)).
Proof.
  rewrite processBody_parts. cbn [bColumns].
  apply flat_map_Forall, columnsOfLine_valid.
Qed.

(** ** The table map *)

Lemma strEq_eq (a b : str) : strEq a b = true <-> a = b.
Proof.
  revert b. induction a as [|x a IH]; intros [|y b]; simpl;
    try (split; [discriminate | congruence]); [tauto|].
  rewrite andb_true_iff, Ascii.eqb_eq, IH. split.
  - intros [-> ->]. reflexivity.
  - intros H. injection H. auto.
Qed.

Lemma mapHas_In (k : str) (m : TableMap) :
  mapHas k m = true <-> In k (map fst m).
Proof.
  unfold mapHas. rewrite existsb_exists, in_map_iff. split.
  - intros (e & He & Hk). apply strEq_eq in Hk. eauto.
  - intros (e & Hk & He). exists e. split; [assumption|]. now apply strEq_eq.
Qed.

Lemma mapSet_Forall (P : str * TableInfo -> Prop) (k : str) (v : TableInfo)
  (m : TableMap) :
  Forall P m -> P (k, v) -> Forall P (mapSet k v m).
Proof.
  intros Hm Hkv. induction Hm as [|[k' v'] m Hx Hm IH]; simpl.
  - repeat constructor. assumption.
  - destruct (strEq k' k); constructor; assumption.
Qed.

Lemma mapSet_keys (k : str) (v : TableInfo) (m : TableMap) :
  map fst (mapSet k v m) =
  if mapHas k m then map fst m else map fst m ++ [k].
Proof.
  unfold mapHas. induction m as [|[k' v'] m IH]; simpl; [reflexivity|].
  destruct (strEq k' k) eqn:E; simpl.
  - apply strEq_eq in E. now subst.
  - rewrite IH. now destruct (existsb _ m).
Qed.

Lemma mapSet_NoDup (k : str) (v : TableInfo) (m : TableMap) :
  NoDup (map fst m) -> NoDup (map fst (mapSet k v m)).
Proof.
  intros H. rewrite mapSet_keys.
  destruct (mapHas k m) eqn:E; [assumption|].
  apply NoDup_app; [assumption | repeat constructor; intros [] | ].
  intros x Hx [<-|[]]. apply mapHas_In in Hx. congruence.
Qed.

Lemma mapSet_In (k : str) (v : TableInfo) (m : TableMap) :
  In (k, v) (mapSet k v m).
Proof.
  induction m as [|[k' v'] m IH]; simpl; [now left|].
  destruct (strEq k' k); [now left | now right].
Qed.

(** ** The schema after scanning *)

Lemma processCreate_invariant (s : Schema) (m : mstate) :
  schemaInvariant s -> schemaInvariant (processCreate s m).
Proof.
  intros [Hv Hn]. unfold processCreate. cbv zeta.
  set (b := processBody _ _ _).
  destruct (0 <? length (bColumns b)) eqn:E; split; cbn [tables];
    try assumption.
  - apply mapSet_Forall; [assumption|]. split; cbn [snd columns].
    + apply Nat.ltb_lt in E. destruct (bColumns b); [simpl in E; lia | discriminate].
    + apply processBody_columns_valid.
  - now apply mapSet_NoDup.
Qed.

Lemma scanCreate_invariant (sql : str) (s : Schema) :
  schemaInvariant s -> schemaInvariant (scanCreate sql s).
Proof.
  unfold scanCreate. generalize (execAll createTableRegex 0 0 sql) as ms.
  intros ms. revert s. induction ms as [|m ms IH]; intros s H; simpl;
    [assumption|].
  apply IH, processCreate_invariant, H.
Qed.

Lemma scanAlter_tables (sql : str) (s : Schema) :
  tables (scanAlter sql s) = tables s.
Proof.
  unfold scanAlter. generalize (execAll alterConstraintRegex 0 0 sql) as ms.
  intros ms. revert s. induction ms as [|m ms IH]; intros s; simpl;
    [reflexivity|].
  now rewrite IH.
Qed.

Lemma buildSchema_invariant (sql : str) : schemaInvariant (buildSchema sql).
Proof.
  unfold buildSchema, schemaInvariant. rewrite scanAlter_tables.
  apply scanCreate_invariant. split; constructor.
Qed.

(** C10. Every Table of the completed Schema has at least one column, and
    all its columns passed the rejection rule; a table-definition
    statement whose body yields no valid column leaves the table map as it
    was. *)
Theorem tables_have_columns (sql : str) :
  Forall validTable (tables (buildSchema sql))
  /\ (forall (s : Schema) (m : mstate),
        bColumns (processBody (cleanName (group 1 m)) (group 2 m)
                              (relationships s)) = [] ->
        tables (processCreate s m) = tables s).
Proof.
  split; [apply buildSchema_invariant|].
  intros s m H. unfold processCreate. cbv zeta. now rewrite H.
Qed.

(** The statement of C10 on a dump whose first table has no valid column. *)
Lemma tables_have_columns_witness :
  let s0 := mkSchema [] [] in
  let m0 := MState 29 [] [(2, ("PRIMARY KEY" : str)); (1, ("T" : str))] in
  tables (processCreate s0 m0) = tables s0
  /\ Forall validTable
       (tables (buildSchema "CREATE TABLE T (PRIMARY KEY); CREATE TABLE U (A DATE);")).
Proof.
  split.
  - apply (proj2 (tables_have_columns [])). reflexivity.
  - apply (proj1 (tables_have_columns _)).
Defined.

(** *** The stored tables and the matches *)

Lemma mapSet_In_inv (k : str) (v : TableInfo) (m : TableMap)
  (e : str * TableInfo) :
  In e (mapSet k v m) -> e = (k, v) \/ In e m.
Proof.
  induction m as [|[k' v'] m IH]; simpl.
  - intros [<-|[]]. now left.
  - destruct (strEq k' k); simpl.
    + intros [<-|H]; [now left | right; now right].
    + intros [<-|H]; [right; now left|].
      destruct (IH H) as [->|H']; [now left | right; now right].
Qed.

Lemma processCreate_tables (s : Schema) (m : mstate) :
  tables (processCreate s m)
  = if 0 <? length (memberColumns (group 2 m))
    then mapSet (fst (tableOfMatch m)) (snd (tableOfMatch m)) (tables s)
    else tables s.
Proof.
  unfold processCreate. cbv zeta. rewrite processBody_parts.
  cbn [bColumns bConstraints]. unfold tableOfMatch, memberColumns.
  now destruct (0 <? length _).
Qed.

Lemma scanCreate_registered (ms : list mstate) : forall (s : Schema)
  (e : str * TableInfo),
  In e (tables (fold_left processCreate ms s)) ->
  In e (tables s) \/ exists m, In m ms /\ e = tableOfMatch m.
Proof.
  induction ms as [|m ms IH]; intros s e H; cbn [fold_left] in H;
    [now left|].
  apply IH in H as [H|(m' & Hm' & ->)].
  - rewrite processCreate_tables in H.
    destruct (0 <? length _); [|now left].
    apply mapSet_In_inv in H as [->|H]; [|now left].
    right. exists m. split; [now left | now destruct (tableOfMatch m)].
  - right. exists m'. split; [now right | reflexivity].
Qed.

(** Every Table of the schema is the one a CREATE TABLE match of the dump
    registers. *)
Lemma tables_registered (sql : str) :
  Forall (registeredBy sql) (tables (buildSchema sql)).
Proof.
  apply Forall_forall. intros e H. unfold buildSchema in H.
  rewrite scanAlter_tables in H. unfold scanCreate in H.
  apply scanCreate_registered in H as [[]|H]. exact H.
Qed.

Lemma flat_map_length_filter {A B : Type} (f : A -> list B) (l : list A) :
  (forall x, length (f x) <= 1) ->
  length (flat_map f l) = length (filter (fun x => 0 <? length (f x)) l).
Proof.
  intros H. induction l as [|x l IH]; cbn [flat_map filter]; [reflexivity|].
  rewrite length_app, IH. specialize (H x).
  destruct (f x) as [|b [|b' t]]; cbn [length Nat.ltb Nat.leb] in *;
    [reflexivity | reflexivity | lia].
Qed.

Lemma columnsOfLine_length (line : str) : length (columnsOfLine line) <= 1.
Proof.
  destruct (columnsOfLine_cases line) as [E | (c & E & _)]; rewrite E;
    simpl; lia.
Qed.

(** C7, as the code has it.  After scanning, table names are unique in the
    Schema; every Table is the one registered by a CREATE TABLE match of
    the dump under the canonical name of the match, and its Column records
    are what the members of the captured body add, member by member in
    body order: a member adds at most one Column, under a canonical name
    that passed the rejection rule, and nothing is deduplicated, so the
    Table has as many Columns as its body has members that yield one. *)
Theorem column_names_not_deduplicated (sql : str) :
  NoDup (map fst (tables (buildSchema sql)))
  /\ Forall (fun e =>
       exists m, In m (execAll createTableRegex 0 0 sql)
                 /\ fst e = cleanName (group 1 m)
                 /\ columns (snd e)
                    = flat_map columnsOfLine (splitBody (group 2 m))
                 /\ length (columns (snd e))
                    = length (filter yieldsColumn (splitBody (group 2 m))))
       (tables (buildSchema sql))
  /\ (forall line : str,
        length (columnsOfLine line) <= 1
        /\ Forall validColumn (columnsOfLine line)).
Proof.
  destruct (buildSchema_invariant sql) as [_ Hn].
  split; [assumption|]. split.
  - eapply Forall_impl; [|apply tables_registered].
    intros e (m & Hm & ->). exists m. cbn [tableOfMatch fst snd columns].
    repeat split; try assumption.
    apply flat_map_length_filter, columnsOfLine_length.
  - intros line. split; [apply columnsOfLine_length | apply columnsOfLine_valid].
Qed.

(** C7, as stated, fails: two members of one body with the same canonical
    name give two Column records of that name. *)
Lemma duplicate_column_names :
  buildSchema "CREATE TABLE T (A NUMBER, A DATE);"
  = mkSchema [(("T" : str),
               mkTableInfo [mkColumn "A" NUMBER false false;
                            mkColumn "A" DATE false false] [])] []
  /\ ~ NoDup (map name [mkColumn "A" NUMBER false false;
                        mkColumn "A" DATE false false]).
Proof.
  split; [vm_compute; reflexivity|].
  intros H. inversion H as [|x l Hin _]; subst. apply Hin. now left.
Qed.

Lemma flat_map_filter {A B : Type} (f : A -> list B) (p : A -> bool) (l : list A) :
  (forall x, p x = false -> f x = []) ->
  flat_map f l = flat_map f (filter p l).
Proof.
  intros H. induction l as [|x l IH]; simpl; [reflexivity|].
  destruct (p x) eqn:E; simpl; rewrite IH; [reflexivity|].
  now rewrite (H x E).
Qed.

(** *** Trimmed text *)

Lemma dropSpace_head (s : str) (c : ascii) (l : str) :
  dropSpace s = c :: l -> isSpace c = false.
Proof.
  induction s as [|x s IH]; simpl; [discriminate|].
  destruct (isSpace x) eqn:E; [assumption|].
  intros H. injection H as -> _. assumption.
Qed.

Lemma dropSpace_suffix (s : str) : exists w, s = w ++ dropSpace s.
Proof.
  induction s as [|x s [w IH]]; simpl; [now exists []|].
  destruct (isSpace x); [|now exists []].
  exists (x :: w). simpl. now rewrite <- IH.
Qed.

(** A trimmed string does not start with white space. *)
Lemma trim_head (s : str) (c : ascii) (l : str) :
  trim s = c :: l -> isSpace c = false.
Proof.
  unfold trim. intros H.
  destruct (dropSpace_suffix (rev (dropSpace s))) as [w Hw].
  apply (f_equal (@rev ascii)) in Hw.
  rewrite rev_involutive, rev_app_distr, H in Hw.
  simpl in Hw. now apply dropSpace_head in Hw.
Qed.

(** ** The matcher and the bodies it captures *)

Lemma reaches_refl (x : mstate) : reaches x x.
Proof. exists []. split; [reflexivity | simpl; lia]. Qed.

Lemma reaches_trans (x y z : mstate) : reaches x y -> reaches y z -> reaches x z.
Proof.
  intros (p & Hp & Ip) (q & Hq & Iq). exists (p ++ q). split.
  - now rewrite Hp, Hq, app_assoc.
  - rewrite length_app. lia.
Qed.

Lemma repeatMatcher_continues (greedy plain : bool)
  (mt : (mstate -> option mstate) -> mstate -> option mstate) :
  continues mt plain ->
  forall n, continues (fun k => repeatMatcher greedy mt k n) plain.
Proof.
  intros Hm n. induction n as [|n IH]; intros k x m H; cbn [repeatMatcher] in H.
  - exists x. split; [assumption|]. split; [apply reaches_refl | reflexivity].
  - cbv zeta in H.
    assert (Hd : mt (fun y => if index x <? index y
                              then repeatMatcher greedy mt k n y else None) x
                 = Some m ->
                 exists y, k y = Some m /\ reaches x y
                           /\ (plain = true -> caps y = caps x)).
    { intros E. apply Hm in E as (y & Hy & Rxy & Cy).
      destruct (index x <? index y); [|discriminate].
      apply IH in Hy as (z & Hz & Ryz & Cz). exists z.
      split; [assumption|]. split; [eapply reaches_trans; eassumption|].
      intros P. now rewrite Cz, Cy. }
    assert (Hk : k x = Some m ->
                 exists y, k y = Some m /\ reaches x y
                           /\ (plain = true -> caps y = caps x)).
    { intros E. exists x. split; [assumption|].
      split; [apply reaches_refl | reflexivity]. }
    destruct greedy.
    + destruct (mt _ x) as [z|] eqn:E; [|now apply Hk].
      injection H as ->. now apply Hd.
    + destruct (k x) as [z|] eqn:E; [|now apply Hd].
      injection H as ->. now apply Hk.
Qed.

(** A match of [r] followed by [k] ends in a match of [k], at a state
    reached by consuming input; the captures are untouched when [r] has
    no group. *)
Lemma rmatch_continues (r : regex) : continues (rmatch r) (noGroups r).
Proof.
  induction r as [|p|r1 IH1 r2 IH2|g r1 IH1|r1 IH1|n r1 IH1| |];
    intros k x m H; cbn [rmatch noGroups] in *.
  - exists x. split; [assumption|]. split; [apply reaches_refl | reflexivity].
  - destruct (rest x) as [|c s] eqn:E; [discriminate|].
    destruct (p c); [|discriminate].
    exists (advance x s). split; [assumption|]. split; [|reflexivity].
    exists [c]. cbn [advance rest index length app]. split; [assumption | lia].
  - apply IH1 in H as (y & Hy & Rxy & Cy).
    apply IH2 in Hy as (z & Hz & Ryz & Cz). exists z.
    split; [assumption|]. split; [eapply reaches_trans; eassumption|].
    intros P. apply andb_true_iff in P as [P1 P2]. now rewrite Cz, Cy.
  - now apply (repeatMatcher_continues g (noGroups r1) (rmatch r1) IH1) in H.
  - destruct (rmatch r1 _ x) as [z|] eqn:E.
    + injection H as ->. apply IH1 in E as (y & Hy & Rxy & Cy).
      destruct (index x <? index y); [|discriminate]. now exists y.
    + exists x. split; [assumption|]. split; [apply reaches_refl | reflexivity].
  - apply IH1 in H as (y & Hy & Rxy & _).
    exists (capture n x y). split; [assumption|]. split; [|discriminate].
    exact Rxy.
  - destruct (index x =? 0); [|discriminate].
    exists x. split; [assumption|]. split; [apply reaches_refl | reflexivity].
  - destruct (rest x) eqn:E; [|discriminate].
    exists x. split; [assumption|]. split; [apply reaches_refl | reflexivity].
Qed.

(** *** The body captured by the CREATE TABLE pattern *)

Lemma first_occurrence (c : ascii) (s : str) :
  In c s -> exists u v, s = u ++ c :: v /\ ~ In c u.
Proof.
  induction s as [|a s IH]; [intros []|]. intros H.
  destruct (Ascii.eqb_spec a c) as [->|Hne].
  - exists [], s. split; [reflexivity | intros []].
  - destruct H as [->|H]; [congruence|].
    destruct (IH H) as (u & v & -> & Hu). exists (a :: u), v.
    split; [reflexivity|]. intros [E|E]; [congruence | auto].
Qed.

Lemma notIn_semicolon (c : ascii) :
  negb (existsb (Ascii.eqb c) ";") = negb (Ascii.eqb c ";").
Proof. cbn. now rewrite orb_false_r. Qed.

(** The greedy loop over characters other than [;] gets to the first
    semicolon. *)
Lemma greedy_to_semicolon (v : str) (k : mstate -> option mstate) (i : nat) :
  (forall z, rest z = ";"%char :: v -> index z = i -> k z <> None) ->
  forall u n x,
    rest x = u ++ ";"%char :: v -> ~ In ";"%char u -> length u < n ->
    index x + length u = i ->
    repeatMatcher true (rmatch (notIn ";")) k n x <> None.
Proof.
  intros Hk u. induction u as [|c u IH]; intros n x Hx Hu Hn Hi;
    (destruct n as [|n]; [simpl in Hn; lia|]); cbn [repeatMatcher];
    cbv zeta; unfold notIn; cbn [rmatch]; rewrite Hx; cbn [app].
  - rewrite notIn_semicolon. cbn. apply Hk; [assumption | simpl in Hi; lia].
  - rewrite notIn_semicolon.
    destruct (Ascii.eqb_spec c ";") as [->|Hc]; [exfalso; apply Hu; now left|].
    cbn [negb advance index].
    destruct (Nat.ltb_spec (index x) (S (index x))) as [_|]; [|lia].
    destruct (repeatMatcher true _ k n _) eqn:E; [discriminate|].
    exfalso. revert E. apply IH.
    + reflexivity.
    + intros H. apply Hu. now right.
    + simpl in Hn. lia.
    + cbn [advance index length] in *. lia.
Qed.

(** The greedy loop over white space, followed by [k], succeeds as soon
    as [k] succeeds wherever the loop may stop before the first
    semicolon. *)
Lemma greedy_space_then (v : str) (k : mstate -> option mstate) (i : nat) :
  (forall z u, rest z = u ++ ";"%char :: v -> ~ In ";"%char u ->
               index z + length u = i -> k z <> None) ->
  forall u n x,
    rest x = u ++ ";"%char :: v -> ~ In ";"%char u -> length u < n ->
    index x + length u = i ->
    repeatMatcher true (rmatch ws) k n x <> None.
Proof.
  intros Hk u. induction u as [|c u IH]; intros n x Hx Hu Hn Hi;
    (destruct n as [|n]; [simpl in Hn; lia|]); cbn [repeatMatcher];
    cbv zeta; unfold ws; cbn [rmatch]; rewrite Hx; cbn [app].
  - change (isSpace ";") with false. cbn iota. now apply (Hk x []).
  - destruct (isSpace c).
    + cbn [advance index].
      destruct (Nat.ltb_spec (index x) (S (index x))) as [_|]; [|lia].
      destruct (repeatMatcher true _ k n _) eqn:E; [discriminate|].
      exfalso. revert E. apply IH.
      * reflexivity.
      * intros H. apply Hu. now right.
      * simpl in Hn. lia.
      * cbn [advance index length] in *. lia.
    + now apply (Hk x (c :: u)).
Qed.

Lemma semicolon_matches (k : mstate -> option mstate) (x : mstate) (v : str) :
  (forall z, k z <> None) ->
  rest x = ";"%char :: v -> rmatch (chr ";") k x <> None.
Proof. intros Hk H. unfold chr. cbn [rmatch]. rewrite H. cbn. apply Hk. Qed.

(** Completeness of what follows the body: at a closing parenthesis
    with a semicolon somewhere after it, it matches. *)
Lemma afterBody_complete (x : mstate) (t : str) :
  rest x = ")"%char :: t -> In ";"%char t -> afterBody x <> None.
Proof.
  intros Hx Ht. unfold afterBody, chr. cbn [rmatch]. rewrite Hx.
  cbn [Ascii.eqb Bool.eqb andb]. cbv iota.
  unfold afterClose, tailPattern. cbn [rmatch].
  destruct (first_occurrence _ _ Ht) as (u & v & -> & Hu).
  set (x1 := advance x (u ++ ";"%char :: v)).
  assert (Hsome : forall z : mstate, Some z <> None) by discriminate.
  destruct (rmatch (star ws) _ x1) eqn:E; [discriminate|].
  destruct u as [|c u].
  - now apply (semicolon_matches _ x1 v).
  - exfalso. revert E. unfold star. cbn [rmatch].
    apply (greedy_space_then v _ (index x1 + length (c :: u))) with (u := c :: u);
      [ | reflexivity | assumption
        | unfold x1; cbn [advance rest]; rewrite length_app; simpl; lia
        | reflexivity ].
    intros z u' Hz Hu' Hi.
    apply (greedy_to_semicolon v _ (index x1 + length (c :: u))) with (u := u');
      [ | assumption | assumption | rewrite Hz, length_app; simpl; lia
        | assumption ].
    intros z' Hz' Hi'.
    destruct (Nat.ltb_spec (index x1) (index z')) as [_|Hge];
      [|cbn [length] in Hi'; lia].
    now apply (semicolon_matches _ z' v).
Qed.

(** Soundness of what follows the body: where it matches there is a
    closing parenthesis and a semicolon after it, and the captures of the
    result are those of the start. *)
Lemma afterBody_sound (x m : mstate) :
  afterBody x = Some m ->
  exists t, rest x = ")"%char :: t /\ In ";"%char t /\ caps m = caps x.
Proof.
  unfold afterBody, chr. cbn [rmatch]. intros H.
  destruct (rest x) as [|c s] eqn:Hx; [discriminate|].
  destruct (Ascii.eqb_spec ")" c) as [<-|]; [|discriminate].
  unfold afterClose, tailPattern in H.
  change (rmatch (Opt (Seq (star ws) (star (notIn ";"))))
            (rmatch (Seq (chr ";") Eps) Some) (advance x s) = Some m) in H.
  apply (rmatch_continues (Opt _)) in H as (y & H & (p & R & _) & C).
  unfold chr in H. cbn [rmatch] in H.
  destruct (rest y) as [|c' s'] eqn:Hy; [discriminate|].
  destruct (Ascii.eqb_spec ";" c') as [<-|]; [|discriminate].
  injection H as <-. exists s. split; [reflexivity|]. split.
  - cbn [advance rest] in R. rewrite R. apply in_or_app. right. now left.
  - cbn [advance caps] in *. now apply C.
Qed.

(** The lazy loop over any character stops at the first state where
    its continuation matches. *)
Lemma lazy_any_first (k : mstate -> option mstate) (n : nat) :
  forall x m,
    repeatMatcher false (rmatch anyChar) k n x = Some m ->
    exists pre y,
      rest x = pre ++ rest y
      /\ y = MState (index x + length pre) (rest y) (caps x)
      /\ k y = Some m
      /\ (forall pre1 c pre2, pre = pre1 ++ c :: pre2 ->
            k (MState (index x + length pre1) (c :: pre2 ++ rest y) (caps x))
            = None).
Proof.
  induction n as [|n IH]; intros x m H; cbn [repeatMatcher] in H.
  - exists [], x. cbn [app length]. rewrite Nat.add_0_r.
    split; [reflexivity|]. split; [now destruct x|]. split; [assumption|].
    intros [|a pre1] c pre2 E; discriminate E.
  - cbv zeta in H. destruct (k x) as [z|] eqn:Ek.
    + injection H as ->. exists [], x. cbn [app length]. rewrite Nat.add_0_r.
      split; [reflexivity|]. split; [now destruct x|]. split; [assumption|].
      intros [|a pre1] c pre2 E; discriminate E.
    + unfold anyChar in H. cbn [rmatch] in H.
      destruct (rest x) as [|c s] eqn:Hx; [discriminate|].
      cbn [advance index] in H.
      destruct (Nat.ltb_spec (index x) (S (index x))) as [_|]; [|lia].
      apply IH in H as (pre & y & Hr & Hy & Hk & Hmin).
      cbn [advance rest index caps] in *.
      exists (c :: pre), y. cbn [app length].
      split; [now rewrite Hr|]. split.
      * rewrite Hy at 1. f_equal. lia.
      * split; [assumption|].
        intros [|a pre1] c' pre2 E; cbn [app length] in *.
        -- injection E as <- <-. rewrite Nat.add_0_r, <- Hr, <- Hx.
           now destruct x.
        -- injection E as <- ->.
           replace (index x + S (length pre1)) with (S (index x) + length pre1)
             by lia.
           now apply Hmin.
Qed.

(** The body captured by a CREATE TABLE match holds no closing
    parenthesis: the lazy body stops at the first closing parenthesis that
    a semicolon follows, and once one is followed by a semicolon so is
    every earlier one. *)
Lemma body_stops_at_first_close (x m : mstate) :
  rmatch (Grp 2 (lazyStar anyChar)) afterBody x = Some m ->
  ~ In ")"%char (group 2 m).
Proof.
  unfold lazyStar. cbn [rmatch]. intros H.
  apply lazy_any_first in H as (pre & y & Hr & Hy & Hk & Hmin).
  apply afterBody_sound in Hk as (t & Ht & Hsemi & Hcaps).
  unfold group. rewrite Hcaps. unfold capture. cbn [caps lookupCap Nat.eqb].
  rewrite Hy. cbn [index]. replace (index x + length pre - index x) with (length pre) by lia.
  rewrite Hr, firstn_app, Nat.sub_diag, firstn_all. cbn [firstn]. rewrite app_nil_r.
  intros Hin. apply in_split in Hin as (pre1 & pre2 & ->).
  specialize (Hmin pre1 ")"%char pre2 eq_refl).
  revert Hmin. apply afterBody_complete with (t := pre2 ++ rest y).
  - reflexivity.
  - cbn [capture rest] in Ht. apply in_or_app. right. rewrite Ht. now right.
Qed.

Lemma createTable_body_no_close (pos : nat) (s : str) (m : mstate) :
  matchAt createTableRegex pos s = Some m -> ~ In ")"%char (group 2 m).
Proof.
  unfold matchAt. intros H.
  change (rmatch
            (seqs [ litI "CREATE"; plus ws; litI "TABLE"; plus ws;
                    Grp 1 (plus (notWsNor "(")); star ws; chr "(" ])
            (rmatch (Grp 2 (lazyStar anyChar)) afterBody)
            (MState pos s []) = Some m) in H.
  apply rmatch_continues in H as (y & H & _).
  now apply body_stops_at_first_close in H.
Qed.

Lemma execAll_In (r : regex) (s : str) : forall pos skip m,
  In m (execAll r pos skip s) ->
  exists pos' s', matchAt r pos' s' = Some m.
Proof.
  induction s as [|c s IH]; intros pos skip m H; cbn [execAll] in H;
    [destruct H|].
  destruct skip as [|k]; [|now apply IH in H].
  destruct (matchAt r pos (c :: s)) as [m'|] eqn:E; [|now apply IH in H].
  destruct H as [<-|H]; [eauto | now apply IH in H].
Qed.

(** No body handed to the member loop by the CREATE TABLE scan holds a
    closing parenthesis. *)
Lemma scanned_bodies_no_close (sql : str) (m : mstate) :
  In m (execAll createTableRegex 0 0 sql) -> ~ In ")"%char (group 2 m).
Proof.
  intros H. apply execAll_In in H as (pos & s & H).
  now apply createTable_body_no_close in H.
Qed.

(** *** Members of a body without closing parenthesis *)

Lemma search_Some (r : regex) (s : str) : forall pos m,
  search r pos s = Some m ->
  exists pos' pre s', s = pre ++ s' /\ matchAt r pos' s' = Some m.
Proof.
  induction s as [|c s IH]; intros pos m H; cbn [search] in H.
  - destruct (matchAt r pos []) eqn:E; [|discriminate].
    injection H as ->. now exists pos, [], [].
  - destruct (matchAt r pos (c :: s)) eqn:E.
    + injection H as ->. now exists pos, [], (c :: s).
    + apply IH in H as (pos' & pre & s' & -> & H).
      now exists pos', (c :: pre), s'.
Qed.

(** A match that goes through a closing parenthesis needs one in the
    text. *)
Lemma close_needed (r : regex) (k : mstate -> option mstate) (x m : mstate) :
  rmatch r (rmatch (chr ")") k) x = Some m -> In ")"%char (rest x).
Proof.
  intros H. apply rmatch_continues in H as (y & H & (p & R & _) & _).
  unfold chr in H. cbn [rmatch] in H.
  destruct (rest y) as [|c t] eqn:Hy; [discriminate|].
  destruct (Ascii.eqb_spec ")" c) as [<-|]; [|discriminate].
  rewrite R. apply in_or_app. right. now left.
Qed.

Lemma pkRegex_needs_close (line : str) (m : mstate) :
  jsMatch pkRegex line = Some m -> In ")"%char line.
Proof.
  unfold jsMatch. intros H.
  apply search_Some in H as (pos & pre & s & -> & H). unfold matchAt in H.
  change (rmatch
            (seqs [ litI "PRIMARY"; plus ws; litI "KEY"; star ws; chr "(";
                    Grp 1 (plus (notIn ")")) ])
            (rmatch (chr ")") (rmatch Eps Some)) (MState pos s []) = Some m) in H.
  apply close_needed in H. apply in_or_app. now right.
Qed.

Lemma fkRegex_needs_close (line : str) (m : mstate) :
  jsMatch fkRegex line = Some m -> In ")"%char line.
Proof.
  unfold jsMatch. intros H.
  apply search_Some in H as (pos & pre & s & -> & H). unfold matchAt in H.
  change (rmatch
            (seqs [ litI "FOREIGN"; plus ws; litI "KEY"; star ws; chr "(";
                    Grp 1 (plus (notIn ")")); chr ")"; plus ws;
                    litI "REFERENCES"; plus ws; Grp 2 (plus (notWsNor "("));
                    star ws; chr "("; Grp 3 (plus (notIn ")")) ])
            (rmatch (chr ")") (rmatch Eps Some)) (MState pos s []) = Some m) in H.
  apply close_needed in H. apply in_or_app. now right.
Qed.

Lemma dropSpace_In (c : ascii) (s : str) : In c (dropSpace s) -> In c s.
Proof.
  destruct (dropSpace_suffix s) as [w E]. intros H. rewrite E.
  apply in_or_app. now right.
Qed.

Lemma trim_In (c : ascii) (s : str) : In c (trim s) -> In c s.
Proof.
  unfold trim. intros H. apply in_rev in H. apply dropSpace_In in H.
  apply in_rev in H. now apply dropSpace_In in H.
Qed.

Lemma topLevelMembers_In (c : ascii) (s : str) : forall d mb,
  In mb (topLevelMembers d s) -> In c mb -> In c s.
Proof.
  induction s as [|a s IH]; intros d mb Hmb Hc; cbn [topLevelMembers] in Hmb.
  - destruct Hmb as [<-|[]]. destruct Hc.
  - destruct (topLevelComma d a).
    + destruct Hmb as [<-|Hmb]; [destruct Hc|]. right. eapply IH; eassumption.
    + destruct (topLevelMembers (depthAfter d a) s) as [|h t] eqn:E.
      * destruct Hmb as [<-|[]]. destruct Hc as [<-|[]]. now left.
      * destruct Hmb as [<-|Hmb].
        -- destruct Hc as [<-|Hc]; [now left|]. right.
           apply (IH (depthAfter d a) h); [rewrite E; now left | assumption].
        -- right. apply (IH (depthAfter d a) mb); [rewrite E; now right | assumption].
Qed.

(** The members are made of characters of the body. *)
Lemma splitBody_In (c : ascii) (body line : str) :
  In line (splitBody body) -> In c line -> In c body.
Proof.
  rewrite splitBody_members. intros H Hc.
  apply in_app_or in H as [H|H].
  - apply in_map_iff in H as (mb & <- & H). apply trim_In in Hc.
    apply (topLevelMembers_In c body 0%Z mb); [|assumption].
    pose proof (topLevelMembers_nonempty 0 body) as Hne.
    rewrite (app_removelast_last [] Hne). apply in_or_app. now left.
  - destruct (nonEmpty _); [|destruct H]. destruct H as [<-|[]].
    apply trim_In in Hc. unfold lastMember in Hc.
    apply (topLevelMembers_In c body 0%Z (last (topLevelMembers 0 body) []));
      [|assumption].
    pose proof (topLevelMembers_nonempty 0 body) as Hne.
    rewrite (app_removelast_last [] Hne) at 2. apply in_or_app. right. now left.
Qed.

(** A member without closing parenthesis adds neither a constraint
    record nor a relationship. *)
Lemma line_without_close (tableName line : str) :
  ~ In ")"%char line ->
  constraintsOfLine line = [] /\ relationshipsOfLine tableName line = [].
Proof.
  intros Hno.
  assert (Hpk : jsMatch pkRegex (trim line) = None).
  { destruct (jsMatch pkRegex (trim line)) eqn:E; [|reflexivity].
    apply pkRegex_needs_close, trim_In in E. contradiction. }
  assert (Hfk : jsMatch fkRegex (trim line) = None).
  { destruct (jsMatch fkRegex (trim line)) eqn:E; [|reflexivity].
    apply fkRegex_needs_close, trim_In in E. contradiction. }
  unfold constraintsOfLine, relationshipsOfLine, processLine. cbv zeta.
  rewrite Hpk, Hfk. split; split_cases; reflexivity.
Qed.

Lemma flat_map_nil {A B : Type} (f : A -> list B) (l : list A) :
  (forall x, In x l -> f x = []) -> flat_map f l = [].
Proof.
  induction l as [|x l IH]; intros H; simpl; [reflexivity|].
  rewrite (H x (or_introl eq_refl)), IH; [reflexivity|].
  intros y Hy. apply H. now right.
Qed.

Lemma processBody_without_close (tableName body : str) (rels : list Relationship) :
  ~ In ")"%char body ->
  bConstraints (processBody tableName body rels) = []
  /\ bRelationships (processBody tableName body rels) = rels.
Proof.
  intros Hno. rewrite processBody_parts. cbn [bConstraints bRelationships].
  assert (Hl : forall line, In line (splitBody body) -> ~ In ")"%char line).
  { intros line Hl Hc. apply Hno. eapply splitBody_In; eassumption. }
  split.
  - apply flat_map_nil. intros l H.
    apply (line_without_close tableName l (Hl l H)).
  - rewrite flat_map_nil; [apply app_nil_r|].
    intros l H. apply (line_without_close tableName l (Hl l H)).
Qed.

Lemma scanCreate_no_inline (ms : list mstate) : forall s,
  Forall (fun m => ~ In ")"%char (group 2 m)) ms ->
  Forall noConstraints (tables s) ->
  relationships (fold_left processCreate ms s) = relationships s
  /\ Forall noConstraints (tables (fold_left processCreate ms s)).
Proof.
  induction ms as [|m ms IH]; intros s Hms Hs; cbn [fold_left];
    [now split|].
  inversion Hms as [|? ? Hm Hrest]; subst.
  destruct (processBody_without_close (cleanName (group 1 m)) (group 2 m)
              (relationships s) Hm) as [Hc Hr].
  destruct (IH (processCreate s m) Hrest) as [IHr IHc].
  - unfold processCreate. cbv zeta. rewrite Hc.
    destruct (0 <? length _); cbn [tables]; [|assumption].
    apply mapSet_Forall; [assumption | reflexivity].
  - split; [|assumption]. rewrite IHr. unfold processCreate. cbv zeta.
    rewrite Hr. now destruct (0 <? length _).
Qed.

Lemma scanAlter_relationships (ms : list mstate) : forall s,
  relationships (fold_left processAlter ms s)
  = relationships s ++ map alterRelationship ms.
Proof.
  induction ms as [|m ms IH]; intros s; cbn [fold_left map].
  - now rewrite app_nil_r.
  - rewrite IH. unfold processAlter. cbn [relationships].
    now rewrite <- app_assoc.
Qed.

(** On every dump, no Table carries a constraint record and the
    relationships are those of the ALTER TABLE statements alone: the
    constraint members of the bodies, cut at the first closing
    parenthesis, never match. *)
Theorem inline_constraints_never_match (sql : str) :
  Forall noConstraints (tables (buildSchema sql))
  /\ relationships (buildSchema sql)
     = map alterRelationship (execAll alterConstraintRegex 0 0 sql).
Proof.
  unfold buildSchema. rewrite scanAlter_tables.
  unfold scanAlter. rewrite scanAlter_relationships. unfold scanCreate.
  destruct (scanCreate_no_inline (execAll createTableRegex 0 0 sql)
              (mkSchema [] [])) as [Hr Hc].
  - apply Forall_forall. intros m. apply scanned_bodies_no_close.
  - constructor.
  - split; [assumption|]. now rewrite Hr.
Qed.

(** C6, as the code has it.  On every dump, an inline constraint member
    with PRIMARY KEY is neither folded into the columns nor kept: the
    members of a captured body add no constraint record, since the body
    stops at the first closing parenthesis and the primary-key pattern
    needs one, so every Table of the Schema has an empty constraint list;
    a constraint member adds no Column either, the Columns of a Table are
    those of the members of its body that are no constraint members, and
    the isPrimaryKey flag of a Column says whether its own member text
    holds PRIMARY KEY. *)
Theorem pk_constraint_neither_folded_nor_kept (sql : str) :
  Forall (fun m =>
       Forall (fun line => constraintsOfLine line = []
                           /\ (isConstraintLine (trim line) = true ->
                               columnsOfLine line = []))
              (splitBody (group 2 m)))
    (execAll createTableRegex 0 0 sql)
  /\ Forall (fun e =>
       constraints (snd e) = []
       /\ exists m, In m (execAll createTableRegex 0 0 sql)
                    /\ fst e = cleanName (group 1 m)
                    /\ columns (snd e)
                       = flat_map columnsOfLine
                           (filter (fun l => negb (isConstraintLine (trim l)))
                                   (splitBody (group 2 m))))
       (tables (buildSchema sql))
  /\ (forall (line : str) (c : Column),
        In c (columnsOfLine line) ->
        isConstraintLine (trim line) = false
        /\ isPrimaryKey c = includes "PRIMARY KEY" (toUpperCase (trim line))).
Proof.
  split; [|split].
  - apply Forall_forall. intros m Hm. apply Forall_forall. intros line Hl.
    split.
    + apply (line_without_close [] line). intros Hc.
      apply (scanned_bodies_no_close sql m Hm).
      eapply splitBody_In; eassumption.
    + apply columnsOfLine_constraint.
  - pose proof (proj1 (inline_constraints_never_match sql)) as Hc.
    pose proof (tables_registered sql) as Hr.
    rewrite Forall_forall in *. intros e He. split; [exact (Hc e He)|].
    destruct (Hr e He) as (m & Hm & ->). exists m.
    cbn [tableOfMatch fst snd columns]. repeat split; try assumption.
    unfold memberColumns. apply flat_map_filter. intros l H.
    apply columnsOfLine_constraint. now destruct (isConstraintLine (trim l)).
  - intros line c Hin.
    destruct (columnsOfLine_cases line) as [E | (c' & E & _ & Hc & Hpk & _)];
      rewrite E in Hin; [destruct Hin|].
    destruct Hin as [<-|[]]. split; assumption.
Qed.

(** The statement of C6 on the table T with its column ID and its
    primary-key constraint member. *)
Lemma pk_constraint_neither_folded_nor_kept_witness :
  Forall noConstraints (tables (buildSchema pkStatement))
  /\ (isConstraintLine (trim "ID NUMBER") = false
      /\ isPrimaryKey (mkColumn "ID" NUMBER false false)
         = includes "PRIMARY KEY" (toUpperCase (trim "ID NUMBER"))).
Proof.
  destruct (pk_constraint_neither_folded_nor_kept pkStatement) as (_ & H2 & H3).
  split.
  - eapply Forall_impl; [|exact H2]. intros e [He _]. exact He.
  - apply H3. vm_compute. now left.
Defined.

(** C6, as stated, fails.  On the statement
    [CREATE TABLE T (ID NUMBER, CONSTRAINT PK_T PRIMARY KEY (ID));] the
    captured body is [ID NUMBER, CONSTRAINT PK_T PRIMARY KEY (ID], and the
    column ID is registered with isPrimaryKey false: the column listed by
    the constraint member is not folded into the flags. *)
Lemma pk_constraint_not_folded :
  map (group 2) (execAll createTableRegex 0 0 pkStatement)
  = [("ID NUMBER, CONSTRAINT PK_T PRIMARY KEY (ID" : str)]
  /\ buildSchema pkStatement
     = mkSchema
         [(("T" : str), mkTableInfo [mkColumn "ID" NUMBER false false] [])] [].
Proof. split; vm_compute; reflexivity. Qed.

(** *** Trimming and the names handed to cleanName *)

Lemma dropSpace_fixed (s : str) :
  (forall c l, s = c :: l -> isSpace c = false) -> dropSpace s = s.
Proof.
  destruct s as [|c l]; [reflexivity|]. intros H. cbn [dropSpace].
  now rewrite (H c l eq_refl).
Qed.

Lemma trim_idempotent (s : str) : trim (trim s) = trim s.
Proof.
  assert (H1 : dropSpace (trim s) = trim s).
  { apply dropSpace_fixed. intros c l E. now apply (trim_head s c l). }
  assert (H2 : dropSpace (rev (trim s)) = rev (trim s)).
  { assert (E : rev (trim s) = dropSpace (rev (dropSpace s)))
      by (unfold trim; apply rev_involutive).
    rewrite E. apply dropSpace_fixed. intros c l E'.
    exact (dropSpace_head _ c l E'). }
  unfold trim at 1. now rewrite H1, H2, rev_involutive.
Qed.

Lemma cleanName_app (a b : str) : cleanName (a ++ b) = cleanName a ++ cleanName b.
Proof.
  unfold cleanName.
  rewrite !trim_wordOnly by apply otherToUnderscore_wordOnly.
  unfold otherToUnderscore, hashToNum, dotsToUnderscore, stripQuotes.
  now rewrite filter_app, map_app, flat_map_app, map_app.
Qed.

(** *** What the groups capture *)


Lemma forallb_weaken {A : Type} (p q : A -> bool) (l : list A) :
  (forall x, p x = true -> q x = true) ->
  forallb p l = true -> forallb q l = true.
Proof. intros H. rewrite !forallb_forall. auto. Qed.

Lemma capsWithin_weaken (ok ok' : nat -> ascii -> bool) (cs : list (nat * str)) :
  (forall n c, ok n c = true -> ok' n c = true) ->
  capsWithin ok cs -> capsWithin ok' cs.
Proof.
  intros H Hc. eapply Forall_impl; [|exact Hc].
  intros e. apply forallb_weaken, H.
Qed.





Lemma dropSpace_split (s : str) :
  exists w, s = w ++ dropSpace s /\ allSpace w = true.
Proof.
  induction s as [|x s (w & IH & Hw)]; cbn [dropSpace]; [now exists []|].
  destruct (isSpace x) eqn:E; [|now exists []].
  exists (x :: w). cbn [app allSpace forallb]. rewrite E.
  split; [now rewrite <- IH | exact Hw].
Qed.

Lemma allSpace_rev (s : str) : allSpace s = true -> allSpace (rev s) = true.
Proof.
  unfold allSpace. rewrite !forallb_forall. intros H c Hc.
  apply H. now apply in_rev.
Qed.

(** A text is its trimmed text between two runs of white space. *)
Lemma trim_split (s : str) :
  exists pre post, s = pre ++ trim s ++ post
                   /\ allSpace pre = true /\ allSpace post = true.
Proof.
  destruct (dropSpace_split s) as (pre & E1 & H1).
  destruct (dropSpace_split (rev (dropSpace s))) as (w & E2 & H2).
  exists pre, (rev w). split; [|split; [assumption | now apply allSpace_rev]].
  unfold trim. rewrite <- rev_app_distr, <- E2, rev_involutive. exact E1.
Qed.



Lemma cleanName_space (c : ascii) : isSpace c = true -> cleanName [c] = ["_"%char].
Proof. by_cases_on_char c. Qed.

Lemma cleanName_spaces (w : str) :
  allSpace w = true -> cleanName w = underscores (length w).
Proof.
  induction w as [|c w IH]; [reflexivity|]. cbn [allSpace forallb].
  intros H. apply andb_true_iff in H as [Hc Hw].
  change (c :: w) with ([c] ++ w).
  rewrite cleanName_app, (cleanName_space c Hc), (IH Hw). reflexivity.
Qed.

(** Text that is no token: white space around the input is not removed
    but becomes one underscore per character. *)
Lemma cleanName_outer_space (pre s post : str) :
  allSpace pre = true -> allSpace post = true ->
  cleanName (pre ++ s ++ post)
  = underscores (length pre) ++ cleanName s ++ underscores (length post).
Proof.
  intros Hpre Hpost.
  now rewrite !cleanName_app, (cleanName_spaces pre Hpre),
    (cleanName_spaces post Hpost).
Qed.

(** The canonical name is that of the trimmed input exactly when the
    input has no white space at either end. *)
Lemma cleanName_trim_iff (s : str) :
  cleanName s = cleanName (trim s) <-> trim s = s.
Proof.
  split; [|intros ->; reflexivity].
  destruct (trim_split s) as (pre & post & E & Hpre & Hpost). intros H.
  rewrite E in H at 1. rewrite (cleanName_outer_space _ _ _ Hpre Hpost) in H.
  apply (f_equal (@length ascii)) in H.
  unfold underscores in H. rewrite !length_app, !repeat_length in H.
  assert (Hp : pre = []) by (apply length_zero_iff_nil; lia).
  assert (Hq : post = []) by (apply length_zero_iff_nil; lia).
  rewrite E at 2. now rewrite Hp, Hq, app_nil_r.
Qed.




(** ** The two examples *)

(** C1. On the EMP statement the body captured by the CREATE TABLE
    pattern stops at the first closing parenthesis, so the member of NAME
    is [NAME VARCHAR(50] and its NOT NULL is lost: one Table EMP with
    columns ID (NUMBER, primary key) and NAME (STRING, isNotNull false),
    and no relationship. *)
Theorem emp_example_loses_not_null :
  map (group 2) (execAll createTableRegex 0 0 empStatement)
  = [("ID NUMBER PRIMARY KEY, NAME VARCHAR(50" : str)]
  /\ buildSchema empStatement
     = mkSchema
         [(("EMP" : str),
           mkTableInfo [mkColumn "ID" NUMBER true false;
                        mkColumn "NAME" STRING false false] [])] [].
Proof. split; vm_compute; reflexivity. Qed.

(** C2, as the code has it.  For the input made of the table ORD with its
    two columns, the EMP statement and the out-of-line statement
    [ALTER TABLE ORD ADD CONSTRAINT FK_ORD_EMP FOREIGN KEY (EMP_ID)
    REFERENCES EMP(ID);], the schema builder produces exactly one
    Relationship, from ORD [EMP_ID] to EMP [ID], and the diagram holds the
    line of ORD and EMP.  A member [FOREIGN KEY (EMP_ID) REFERENCES
    EMP(ID)] without the keyword CONSTRAINT is read as a column named
    FOREIGN and gives no Relationship. *)
Theorem ord_emp_relationship_out_of_line :
  let s := buildSchema (ordPlainStatement ++ [nl] ++ empStatement ++ [nl]
                        ++ ordAlterStatement) in
  relationships s
  = [mkRelationship "ORD" "EMP" [("EMP_ID" : str)] [("ID" : str)]]
  /\ map fst (tables s) = [("ORD" : str); ("EMP" : str)]
  /\ includes ([nl] ++ "    " ++ ordEmpLine ++ [nl]) (diagramOf s) = true
  /\ columnsOfLine "FOREIGN KEY (EMP_ID) REFERENCES EMP(ID)"
     = [mkColumn "FOREIGN" OTHER false false]
  /\ relationshipsOfLine "ORD" "FOREIGN KEY (EMP_ID) REFERENCES EMP(ID)" = [].
Proof. cbv zeta. repeat split; vm_compute; reflexivity. Qed.

(** C2, as stated, fails: on the ORD statement with the inline FOREIGN KEY
    member, followed by the EMP statement, no Relationship is produced and
    the diagram holds no line of ORD and EMP. *)
Lemma ord_emp_inline_no_relationship :
  let s := buildSchema (ordStatement ++ [nl] ++ empStatement) in
  relationships s = []
  /\ map fst (tables s) = [("ORD" : str); ("EMP" : str)]
  /\ includes ordEmpLine (diagramOf s) = false.
Proof. cbv zeta. repeat split; vm_compute; reflexivity. Qed.

(** ** Rendering *)

Lemma occursIn_prefix (x s : str) : prefixOf x s -> occursIn x s.
Proof. intros [post ->]. now exists [], post. Qed.

Lemma occursIn_right (x s t : str) : occursIn x t -> occursIn x (s ++ t).
Proof.
  intros (pre & post & ->). exists (s ++ pre), post. now rewrite app_assoc.
Qed.

Lemma prefixOf_here (x post : str) : prefixOf x (x ++ post).
Proof. now exists post. Qed.

Lemma prefixOf_refl (x : str) : prefixOf x x.
Proof. exists []. now rewrite app_nil_r. Qed.

Lemma prefixOf_app (x y s : str) : prefixOf y s -> prefixOf (x ++ y) (x ++ s).
Proof. intros [post ->]. exists post. now rewrite app_assoc. Qed.

(** Looks for the piece in a text written as a right-nested append. *)
Ltac find_piece :=
  first
    [ solve [ apply occursIn_prefix; repeat apply prefixOf_app;
              first [ apply prefixOf_here | apply prefixOf_refl ] ]
    | apply occursIn_right; find_piece ].

(** A loop that only appends. *)
Lemma forEach_append {A : Type} (body : str -> A -> str) (g : A -> str) :
  (forall acc x, body acc x = acc ++ g x) ->
  forall xs acc, forEach xs body acc = acc ++ concat (map g xs).
Proof.
  intros H. unfold forEach.
  induction xs as [|x xs IH]; intros acc; simpl.
  - now rewrite app_nil_r.
  - now rewrite IH, H, <- app_assoc.
Qed.

Lemma concat_map_filter {A : Type} (f : A -> str) (p : A -> bool) (l : list A) :
  concat (map (fun x => if p x then f x else []) l)
  = concat (map f (filter p l)).
Proof.
  induction l as [|x l IH]; simpl; [reflexivity|].
  destruct (p x); simpl; now rewrite IH.
Qed.

Lemma relationLines_filter (ts : TableMap) (rels : list Relationship) (acc : str) :
  relationLines ts rels acc
  = acc ++ concat (map relationLine
                       (filter (fun rel => mapHas (from rel) ts
                                           && mapHas (to rel) ts) rels)).
Proof.
  unfold relationLines.
  rewrite (forEach_append _
    (fun rel => if mapHas (from rel) ts && mapHas (to rel) ts
                then relationLine rel else [])).
  - now rewrite (concat_map_filter relationLine).
  - intros a rel. destruct (_ && _); [reflexivity | now rewrite app_nil_r].
Qed.

Lemma partitionRelationLines_filter (rels : list Relationship)
  (names : list str) : forall (c : str) (shown : list Relationship),
  let inChunk := fun rel => existsb (strEq (from rel)) names
                            && existsb (strEq (to rel)) names in
  partitionRelationLines rels names (c, shown)
  = (c ++ concat (map relationLine (filter inChunk rels)),
     shown ++ filter inChunk rels).
Proof.
  unfold partitionRelationLines. cbv zeta.
  induction rels as [|rel rels IH]; intros c shown; cbn [fold_left filter].
  - cbn [map concat]. now rewrite !app_nil_r.
  - destruct (_ && _); rewrite IH; cbn [fst snd map concat]; [|reflexivity].
    now rewrite <- !app_assoc.
Qed.

Section PartitioningProperties.

Variables timestamp inputFile outputFile outputBaseName : str.
Variable tbls : TableMap.
Variable rels : list Relationship.

Local Abbreviation document :=
  (fst (generateMarkdownContent timestamp inputFile outputBaseName tbls rels)).
Local Abbreviation output :=
  (writeOutput timestamp inputFile outputFile outputBaseName tbls rels).
Local Abbreviation total := (ceilDiv (length tbls) 50).
(** The file of partition [i]. *)
Local Abbreviation partitionFile i :=
  (partitionFileName outputBaseName i,
   fst (partitionDocument timestamp outputBaseName rels total i
          (chunkStart i) (chunkEnd i tbls) (chunk i tbls))).
Local Abbreviation indexFile := (outputBaseName ++ "_index.md", document).

Lemma partitionStep_writes (n : nat) (acc : str * list File) (i : nat) :
  snd (partitionStep timestamp outputBaseName rels tbls n acc i)
  = snd acc
    ++ [(partitionFileName outputBaseName i,
         fst (partitionDocument timestamp outputBaseName rels n i
                (chunkStart i) (chunkEnd i tbls) (chunk i tbls)))].
Proof.
  unfold partitionStep, chunk, chunkEnd, chunkStart. cbv zeta.
  destruct (partitionDocument _ _ _ _ _ _ _ _) as [c shown].
  reflexivity.
Qed.

Lemma partitionLoop_writes (n : nat) (idxs : list nat) :
  forall acc : str * list File,
  snd (fold_left (partitionStep timestamp outputBaseName rels tbls n) idxs acc)
  = snd acc
    ++ map (fun i =>
              (partitionFileName outputBaseName i,
               fst (partitionDocument timestamp outputBaseName rels n i
                      (chunkStart i) (chunkEnd i tbls) (chunk i tbls)))) idxs.
Proof.
  induction idxs as [|i idxs IH]; intros acc; cbn [fold_left map].
  - now rewrite app_nil_r.
  - rewrite IH, partitionStep_writes. now rewrite <- app_assoc.
Qed.

Lemma partitioned_writes :
  snd (generatePartitionedDiagrams timestamp outputBaseName rels tbls)
  = map (fun i => partitionFile i) (seq 0 total).
Proof.
  unfold generatePartitionedDiagrams. cbv zeta.
  pose proof (partitionLoop_writes total (seq 0 total)) as H.
  match goal with
  | |- context [fold_left ?f ?l ?a] => specialize (H a); destruct (fold_left f l a)
  end.
  cbn [snd] in H. rewrite app_nil_l in H. subst.
  now destruct (0 <? length rels).
Qed.

Lemma single_writes :
  length tbls <= 100 ->
  snd (generateMarkdownContent timestamp inputFile outputBaseName tbls rels) = [].
Proof.
  intros H. apply Nat.ltb_ge in H.
  unfold generateMarkdownContent, generateMermaidDiagram. rewrite H.
  cbv beta iota zeta. now destruct (0 <? length rels).
Qed.

Lemma output_single :
  0 < length tbls -> length tbls <= 100 -> output = [(outputFile, document)].
Proof.
  intros Hpos Hle. unfold writeOutput.
  destruct (Nat.eqb_spec (length tbls) 0) as [E|_]; [lia|].
  pose proof (single_writes Hle) as Hw.
  destruct (generateMarkdownContent _ _ _ _ _) as [c ws].
  cbn [snd fst] in *. subst ws.
  apply Nat.ltb_ge in Hle. now rewrite Hle.
Qed.

Lemma output_partitioned :
  100 < length tbls ->
  output = map (fun i => partitionFile i) (seq 0 total) ++ [indexFile].
Proof.
  intros Hgt. unfold writeOutput.
  destruct (Nat.eqb_spec (length tbls) 0) as [E|_]; [lia|].
  assert (Hw : snd (generateMarkdownContent timestamp inputFile
                      outputBaseName tbls rels)
               = map (fun i => partitionFile i) (seq 0 total)).
  { rewrite <- partitioned_writes.
    unfold generateMarkdownContent, generateMermaidDiagram.
    apply Nat.ltb_lt in Hgt. now rewrite Hgt. }
  destruct (generateMarkdownContent _ _ _ _ _) as [c ws].
  cbn [snd fst] in *. subst ws.
  apply Nat.ltb_lt in Hgt. now rewrite Hgt.
Qed.

Lemma chunk_length (i : nat) :
  chunkStart i + 50 <= length tbls -> length (chunk i tbls) = 50.
Proof.
  unfold chunk, chunkEnd, slice. intros H.
  rewrite length_firstn, length_skipn. lia.
Qed.

Lemma slice_then_rest {A : Type} (a b : nat) (l : list A) :
  slice a (a + b) l ++ skipn (a + b) l = skipn a l.
Proof.
  unfold slice. replace (a + b - a) with b by lia.
  rewrite (Nat.add_comm a b), <- skipn_skipn. apply firstn_skipn.
Qed.

Lemma three_chunks :
  length tbls = 150 -> chunk 0 tbls ++ chunk 1 tbls ++ chunk 2 tbls = tbls.
Proof.
  intros H. unfold chunk, chunkEnd, chunkStart. rewrite H.
  replace (Nat.min (0 * 50 + 50) 150) with (0 + 50) by reflexivity.
  replace (Nat.min (1 * 50 + 50) 150) with (50 + 50) by reflexivity.
  replace (Nat.min (2 * 50 + 50) 150) with (100 + 50) by reflexivity.
  replace (0 * 50) with 0 by reflexivity.
  replace (1 * 50) with 50 by reflexivity.
  replace (2 * 50) with 100 by reflexivity.
  assert (E : slice 100 (100 + 50) tbls = skipn 100 tbls).
  { unfold slice. apply firstn_all2. rewrite length_skipn. lia. }
  rewrite E.
  replace (skipn 100 tbls) with (skipn (50 + 50) tbls) by reflexivity.
  rewrite slice_then_rest.
  replace (skipn 50 tbls) with (skipn (0 + 50) tbls) by reflexivity.
  now rewrite slice_then_rest.
Qed.

End PartitioningProperties.

(** *** The loops in closed form *)

Lemma columnLine_closed (c : Column) : columnLine c = drawnColumn c.
Proof.
  unfold columnLine, drawnColumn. cbv zeta.
  destruct (isPrimaryKey c); destruct (isNotNull c); cbn [andb negb];
    rewrite <- ?app_assoc; reflexivity.
Qed.

Lemma columnRow_closed (c : Column) : columnRow c = listedColumn c.
Proof.
  unfold columnRow, listedColumn. cbv zeta.
  destruct (isPrimaryKey c); destruct (isNotNull c); reflexivity.
Qed.

Lemma tableBlocks_closed (ts : TableMap) (acc : str) :
  tableBlocks ts acc = acc ++ concat (map blockOf ts).
Proof.
  unfold tableBlocks. apply forEach_append.
  intros a e. cbv beta zeta.
  rewrite (forEach_append _ drawnColumn)
    by (intros; now rewrite columnLine_closed).
  unfold blockOf. now rewrite <- !app_assoc.
Qed.

Lemma tableListing_closed (ts : TableMap) (acc : str) :
  tableListing ts acc = acc ++ concat (map listingOf ts).
Proof.
  unfold tableListing. apply forEach_append.
  intros a e. cbv beta zeta.
  rewrite (forEach_append _ listedColumn)
    by (intros; now rewrite columnRow_closed).
  unfold listingOf. now rewrite <- !app_assoc.
Qed.

Lemma relationRows_closed (rels : list Relationship) (acc : str) :
  relationRows rels acc = acc ++ concat (map rowOf rels).
Proof. apply (forEach_append _ rowOf). reflexivity. Qed.

Lemma relationLines_closed (ts : TableMap) (rels : list Relationship) (acc : str) :
  relationLines ts rels acc
  = acc ++ concat (map lineOf (filter (bothExist ts) rels)).
Proof. exact (relationLines_filter ts rels acc). Qed.

Lemma partitionRelationLines_closed (rels : list Relationship)
  (names : list str) (c : str) :
  partitionRelationLines rels names (c, [])
  = (c ++ concat (map lineOf (filter (bothIn names) rels)),
     filter (bothIn names) rels).
Proof. exact (partitionRelationLines_filter rels names c []). Qed.

(** *** The three documents in closed form *)

Lemma single_document_closed (timestamp inputFile outputBaseName : str)
  (tbls : TableMap) (rels : list Relationship) :
  length tbls <= 100 ->
  generateMarkdownContent timestamp inputFile outputBaseName tbls rels
  = (singleDocument timestamp inputFile tbls (filter (bothExist tbls) rels) rels,
     []).
Proof.
  intros H. apply Nat.ltb_ge in H.
  unfold generateMarkdownContent, generateMermaidDiagram. rewrite H.
  cbv beta iota zeta.
  rewrite relationLines_closed, tableBlocks_closed, tableListing_closed,
    relationRows_closed.
  unfold singleDocument, fenced, diagramText, relationTable, relationHeader.
  destruct (0 <? length rels); f_equal; rewrite <- ?app_assoc;
    cbn [app]; reflexivity.
Qed.

Lemma partition_document_closed (timestamp outputBaseName : str)
  (rels : list Relationship) (total i start stop : nat) (part : TableMap) :
  partitionDocument timestamp outputBaseName rels total i start stop part
  = (partitionText timestamp outputBaseName total i start stop part
                   (filter (bothIn (map fst part)) rels),
     filter (bothIn (map fst part)) rels).
Proof.
  unfold partitionDocument. cbv zeta.
  rewrite tableBlocks_closed, partitionRelationLines_closed.
  cbv beta iota zeta.
  rewrite tableListing_closed, relationRows_closed.
  unfold partitionText, fenced, diagramText, relationTable, relationHeader.
  destruct (0 <? i); destruct (i <? total - 1);
    destruct (0 <? length _); f_equal; rewrite <- ?app_assoc;
    cbn [app]; reflexivity.
Qed.

Lemma partitionStep_closed (timestamp outputBaseName : str)
  (rels : list Relationship) (tbls : TableMap) (acc : str * list File)
  (i : nat) :
  partitionStep timestamp outputBaseName rels tbls
                (ceilDiv (length tbls) 50) acc i
  = (fst acc ++ indexEntry outputBaseName tbls rels i,
     snd acc ++ [partitionFile timestamp outputBaseName tbls rels i]).
Proof.
  unfold partitionStep. cbv zeta.
  rewrite partition_document_closed.
  unfold indexEntry, partitionFile, chunkShown, chunk, chunkEnd, chunkStart.
  f_equal. now rewrite <- !app_assoc.
Qed.

Lemma partitionLoop_closed (timestamp outputBaseName : str)
  (rels : list Relationship) (tbls : TableMap) (idxs : list nat) :
  forall acc : str * list File,
  fold_left (partitionStep timestamp outputBaseName rels tbls
                           (ceilDiv (length tbls) 50)) idxs acc
  = (fst acc ++ concat (map (indexEntry outputBaseName tbls rels) idxs),
     snd acc ++ map (partitionFile timestamp outputBaseName tbls rels) idxs).
Proof.
  induction idxs as [|i idxs IH]; intros acc; cbn [fold_left map concat].
  - rewrite !app_nil_r. now destruct acc.
  - rewrite IH, partitionStep_closed. cbn [fst snd].
    now rewrite <- !app_assoc.
Qed.

Lemma index_document_closed (timestamp inputFile outputBaseName : str)
  (tbls : TableMap) (rels : list Relationship) :
  100 < length tbls ->
  generateMarkdownContent timestamp inputFile outputBaseName tbls rels
  = (indexDocument timestamp outputBaseName tbls rels,
     map (partitionFile timestamp outputBaseName tbls rels)
         (seq 0 (ceilDiv (length tbls) 50))).
Proof.
  intros H. apply Nat.ltb_lt in H.
  unfold generateMarkdownContent, generateMermaidDiagram. rewrite H.
  unfold generatePartitionedDiagrams. cbv zeta.
  rewrite partitionLoop_closed. cbv beta iota zeta. cbn [fst snd].
  rewrite relationRows_closed.
  unfold indexDocument, relationTable, relationHeader.
  destruct (0 <? length rels); f_equal; rewrite <- ?app_assoc;
    cbn [app]; reflexivity.
Qed.

(** What the script writes, file by file. *)
Lemma output_closed (timestamp inputFile outputFile outputBaseName : str)
  (tbls : TableMap) (rels : list Relationship) :
  writeOutput timestamp inputFile outputFile outputBaseName tbls rels
  = if length tbls =? 0 then []
    else if 100 <? length tbls
    then map (partitionFile timestamp outputBaseName tbls rels)
             (seq 0 (ceilDiv (length tbls) 50))
         ++ [(outputBaseName ++ "_index.md",
              indexDocument timestamp outputBaseName tbls rels)]
    else [(outputFile,
           singleDocument timestamp inputFile tbls
                          (filter (bothExist tbls) rels) rels)].
Proof.
  unfold writeOutput. destruct (length tbls =? 0); [reflexivity|].
  destruct (Nat.ltb_spec 100 (length tbls)) as [H|H].
  - now rewrite index_document_closed.
  - now rewrite single_document_closed.
Qed.

Lemma existsb_strEq_In (k : str) (names : list str) :
  existsb (strEq k) names = true <-> In k names.
Proof.
  rewrite existsb_exists. split.
  - intros (x & Hx & E). apply strEq_eq in E. now subst.
  - intros H. exists k. split; [assumption | now apply strEq_eq].
Qed.

(** *** Pieces of the documents *)

Lemma occursIn_trans (x y z : str) : occursIn x y -> occursIn y z -> occursIn x z.
Proof.
  intros (p & q & ->) (p' & q' & ->). exists (p' ++ p), (q ++ q').
  now rewrite <- !app_assoc.
Qed.

Lemma occursIn_left (x s t : str) : occursIn x s -> occursIn x (s ++ t).
Proof.
  intros (pre & post & ->). exists pre, (post ++ t). now rewrite <- !app_assoc.
Qed.

Lemma concat_map_occurs {A : Type} (f : A -> str) (x : A) (l : list A) :
  In x l -> occursIn (f x) (concat (map f l)).
Proof.
  induction l as [|a l IH]; [intros []|]. cbn [map concat].
  intros [->|H].
  - apply occursIn_left. exists [], []. now rewrite app_nil_r.
  - apply occursIn_right. now apply IH.
Qed.

Lemma bothExist_In (ts : TableMap) (rel : Relationship) :
  bothExist ts rel = true
  <-> In (from rel) (map fst ts) /\ In (to rel) (map fst ts).
Proof. unfold bothExist. now rewrite andb_true_iff, !mapHas_In. Qed.

Lemma bothIn_In (names : list str) (rel : Relationship) :
  bothIn names rel = true <-> In (from rel) names /\ In (to rel) names.
Proof. unfold bothIn. now rewrite andb_true_iff, !existsb_strEq_In. Qed.

Lemma lines_in_diagram (ts : TableMap) (shown : list Relationship)
  (rel : Relationship) :
  In rel shown -> occursIn (lineOf rel) (fenced (diagramText ts shown)).
Proof.
  intros H. apply (occursIn_trans _ (concat (map lineOf shown)));
    [now apply concat_map_occurs|].
  unfold fenced, diagramText. rewrite <- ?app_assoc. find_piece.
Qed.

Lemma blocks_in_diagram (ts : TableMap) (shown : list Relationship)
  (e : str * TableInfo) :
  In e ts ->
  occursIn ("    " ++ cleanName (fst e) ++ " {" ++ [nl])
           (fenced (diagramText ts shown)).
Proof.
  intros H. apply (occursIn_trans _ (blockOf e)).
  { unfold blockOf. find_piece. }
  apply (occursIn_trans _ (concat (map blockOf ts)));
    [now apply concat_map_occurs|].
  unfold fenced, diagramText. rewrite <- ?app_assoc. find_piece.
Qed.

Lemma headings_in_listing (ts : TableMap) (e : str * TableInfo) :
  In e ts -> occursIn ("### " ++ fst e ++ [nl; nl]) (concat (map listingOf ts)).
Proof.
  intros H. apply (occursIn_trans _ (listingOf e));
    [|now apply concat_map_occurs].
  unfold listingOf. find_piece.
Qed.

Lemma rows_in_table (rels : list Relationship) (rel : Relationship) :
  In rel rels -> occursIn (rowOf rel) (relationTable rels).
Proof.
  intros H. apply (occursIn_trans _ (concat (map rowOf rels)));
    [now apply concat_map_occurs|].
  unfold relationTable. find_piece.
Qed.

Lemma length_pos (rels : list Relationship) (rel : Relationship) :
  In rel rels -> (0 <? length rels) = true.
Proof. destruct rels; [intros [] | reflexivity]. Qed.

Lemma single_document_pieces (timestamp inputFile : str) (ts : TableMap)
  (shown rels : list Relationship) :
  occursIn (fenced (diagramText ts shown))
           (singleDocument timestamp inputFile ts shown rels)
  /\ occursIn (concat (map listingOf ts))
              (singleDocument timestamp inputFile ts shown rels)
  /\ (forall rel, In rel rels ->
        occursIn (relationTable rels)
                 (singleDocument timestamp inputFile ts shown rels)).
Proof.
  unfold singleDocument. split; [|split].
  - find_piece.
  - find_piece.
  - intros rel H. rewrite (length_pos rels rel H). rewrite <- ?app_assoc.
    find_piece.
Qed.

Lemma partition_text_pieces (timestamp outputBaseName : str)
  (total i start stop : nat) (part : TableMap) (shown : list Relationship) :
  occursIn (fenced (diagramText part shown))
           (partitionText timestamp outputBaseName total i start stop part shown)
  /\ occursIn (concat (map listingOf part))
       (partitionText timestamp outputBaseName total i start stop part shown).
Proof.
  unfold partitionText. split; find_piece.
Qed.

Lemma index_document_pieces (timestamp outputBaseName : str) (ts : TableMap)
  (rels : list Relationship) (rel : Relationship) :
  In rel rels ->
  occursIn (relationTable rels) (indexDocument timestamp outputBaseName ts rels).
Proof.
  intros H. unfold indexDocument. rewrite (length_pos rels rel H). find_piece.
Qed.

Section RenderingProperties.

Variables timestamp inputFile outputFile outputBaseName : str.
Variable tbls : TableMap.
Variable rels : list Relationship.

Local Abbreviation document :=
  (fst (generateMarkdownContent timestamp inputFile outputBaseName tbls rels)).
Local Abbreviation output :=
  (writeOutput timestamp inputFile outputFile outputBaseName tbls rels).
Local Abbreviation total := (ceilDiv (length tbls) 50).
Local Abbreviation partition i :=
  (partitionFile timestamp outputBaseName tbls rels i).

(** C3. A relationship gets a diagram line only when its two end tables
    exist in the Schema (single document) or lie in the same chunk
    (partition documents), and every relationship, dangling and
    cross-chunk ones too, has its row in the full relationship table of
    the single document or of the index.  The single document is the
    heading, one diagram with the blocks of the tables and the lines of
    exactly the relationships whose two end tables are keys of the map,
    the listing, and the table with the rows of all the relationships; a
    partition document has in its one diagram the lines of exactly the
    relationships with both end tables among the names of its chunk; the
    index has no diagram and holds the table with the rows of all the
    relationships. *)
Theorem relationship_lines_and_rows :
  (forall rel : Relationship,
      In rel (filter (bothExist tbls) rels)
      <-> In rel rels
          /\ In (from rel) (map fst tbls) /\ In (to rel) (map fst tbls))
  /\ (forall (names : list str) (rel : Relationship),
        In rel (filter (bothIn names) rels)
        <-> In rel rels /\ In (from rel) names /\ In (to rel) names)
  /\ (length tbls <= 100 ->
      document
      = singleDocument timestamp inputFile tbls
                       (filter (bothExist tbls) rels) rels
      /\ (forall rel : Relationship,
            In rel rels -> bothExist tbls rel = true ->
            occursIn (lineOf rel) document)
      /\ (forall rel : Relationship,
            In rel rels -> occursIn (rowOf rel) document))
  /\ (100 < length tbls ->
      document = indexDocument timestamp outputBaseName tbls rels
      /\ output
         = map (fun i => partition i) (seq 0 total)
           ++ [(outputBaseName ++ "_index.md", document)]
      /\ (forall rel : Relationship,
            In rel rels -> occursIn (rowOf rel) document)
      /\ (forall (i : nat) (rel : Relationship),
            In rel rels -> bothIn (map fst (chunk i tbls)) rel = true ->
            occursIn (lineOf rel) (snd (partition i))))
  /\ (forall (n i start stop : nat) (part : TableMap),
        partitionDocument timestamp outputBaseName rels n i start stop part
        = (partitionText timestamp outputBaseName n i start stop part
                         (filter (bothIn (map fst part)) rels),
           filter (bothIn (map fst part)) rels)).
Proof.
  split; [intros rel; now rewrite filter_In, bothExist_In|].
  split; [intros names rel; now rewrite filter_In, bothIn_In|].
  split; [|split].
  - intros H. rewrite (single_document_closed _ _ _ _ _ H). cbn [fst].
    destruct (single_document_pieces timestamp inputFile tbls
                (filter (bothExist tbls) rels) rels) as (Hd & _ & Hr).
    split; [reflexivity|]. split.
    + intros rel Hin Hb. eapply occursIn_trans; [|exact Hd].
      apply lines_in_diagram, filter_In. now split.
    + intros rel Hin. eapply occursIn_trans; [|exact (Hr rel Hin)].
      now apply rows_in_table.
  - intros H. pose proof (output_closed timestamp inputFile outputFile
                            outputBaseName tbls rels) as Ho.
    destruct (Nat.eqb_spec (length tbls) 0) as [E|_]; [lia|].
    apply Nat.ltb_lt in H. rewrite H in Ho. apply Nat.ltb_lt in H.
    rewrite (index_document_closed _ _ _ _ _ H). cbn [fst].
    split; [reflexivity|]. split; [exact Ho|]. split.
    + intros rel Hin.
      eapply occursIn_trans; [|exact (index_document_pieces _ _ _ _ rel Hin)].
      now apply rows_in_table.
    + intros i rel Hin Hb. unfold partitionFile. cbn [snd].
      eapply occursIn_trans; [|apply (proj1 (partition_text_pieces _ _ _ _ _ _ _ _))].
      apply lines_in_diagram, filter_In. now split.
  - intros. apply partition_document_closed.
Qed.

(** C4. The renderer partitions exactly when there are more than 100
    tables, in chunks of 50 tables in discovery order.  Nothing is written
    for no table; up to 100 tables the single document, with the block and
    the listing of every table; above 100 one document per chunk, with the
    blocks and the listings of the tables of its chunk, and then the
    index.  With 150 tables these are three partition documents, of the
    first, the second and the third 50 tables, and the index; with 100
    tables the single document. *)
Theorem partitioning_by_table_count :
  (length tbls = 0 -> output = [])
  /\ (0 < length tbls -> length tbls <= 100 ->
      output
      = [(outputFile,
          singleDocument timestamp inputFile tbls
                         (filter (bothExist tbls) rels) rels)])
  /\ (100 < length tbls ->
      output
      = map (fun i => partition i) (seq 0 total)
        ++ [(outputBaseName ++ "_index.md",
             indexDocument timestamp outputBaseName tbls rels)])
  /\ (forall e : str * TableInfo,
        In e tbls ->
        occursIn ("    " ++ cleanName (fst e) ++ " {" ++ [nl])
                 (singleDocument timestamp inputFile tbls
                                 (filter (bothExist tbls) rels) rels)
        /\ occursIn ("### " ++ fst e ++ [nl; nl])
                    (singleDocument timestamp inputFile tbls
                                    (filter (bothExist tbls) rels) rels))
  /\ (forall (i : nat) (e : str * TableInfo),
        In e (chunk i tbls) ->
        occursIn ("    " ++ cleanName (fst e) ++ " {" ++ [nl]) (snd (partition i))
        /\ occursIn ("### " ++ fst e ++ [nl; nl]) (snd (partition i)))
  /\ (length tbls = 150 ->
      output
      = [partition 0; partition 1; partition 2;
         (outputBaseName ++ "_index.md",
          indexDocument timestamp outputBaseName tbls rels)]
      /\ length (chunk 0 tbls) = 50
      /\ length (chunk 1 tbls) = 50
      /\ length (chunk 2 tbls) = 50
      /\ chunk 0 tbls ++ chunk 1 tbls ++ chunk 2 tbls = tbls)
  /\ (length tbls = 100 ->
      output
      = [(outputFile,
          singleDocument timestamp inputFile tbls
                         (filter (bothExist tbls) rels) rels)]).
Proof.
  pose proof (output_closed timestamp inputFile outputFile outputBaseName
                tbls rels) as Ho.
  assert (Hsingle : 0 < length tbls -> length tbls <= 100 ->
            output
            = [(outputFile,
                singleDocument timestamp inputFile tbls
                               (filter (bothExist tbls) rels) rels)]).
  { intros Hpos Hle. rewrite Ho.
    destruct (Nat.eqb_spec (length tbls) 0) as [E|_]; [lia|].
    apply Nat.ltb_ge in Hle. now rewrite Hle. }
  assert (Hparts : 100 < length tbls ->
            output
            = map (fun i => partition i) (seq 0 total)
              ++ [(outputBaseName ++ "_index.md",
                   indexDocument timestamp outputBaseName tbls rels)]).
  { intros Hgt. rewrite Ho.
    destruct (Nat.eqb_spec (length tbls) 0) as [E|_]; [lia|].
    apply Nat.ltb_lt in Hgt. now rewrite Hgt. }
  split; [|split; [exact Hsingle|split; [exact Hparts|split; [|split; [|split]]]]].
  - intros H. rewrite Ho, H. reflexivity.
  - intros e He.
    destruct (single_document_pieces timestamp inputFile tbls
                (filter (bothExist tbls) rels) rels) as (Hd & Hl & _).
    split.
    + eapply occursIn_trans; [|exact Hd]. now apply blocks_in_diagram.
    + eapply occursIn_trans; [|exact Hl]. now apply headings_in_listing.
  - intros i e He. unfold partitionFile. cbn [snd]. split.
    + eapply occursIn_trans; [|apply (proj1 (partition_text_pieces _ _ _ _ _ _ _ _))].
      now apply blocks_in_diagram.
    + eapply occursIn_trans; [|apply (proj2 (partition_text_pieces _ _ _ _ _ _ _ _))].
      now apply headings_in_listing.
  - intros H. split.
    + rewrite Hparts by lia. rewrite H. reflexivity.
    + repeat split; try (apply chunk_length; unfold chunkStart; lia).
      now apply three_chunks.
  - intros H. apply Hsingle; lia.
Qed.

End RenderingProperties.

(** The statement of C3 on a schema of 3 tables and on one of 101 tables,
    with a relationship inside the first chunk and a dangling or
    cross-chunk one. *)
Lemma relationship_lines_and_rows_witness :
  let small := sampleTables 3 in
  let large := sampleTables 101 in
  let inside := mkRelationship "T1" "T2" [("A" : str)] [("ID" : str)] in
  let across := mkRelationship "T1" "T60" [("B" : str)] [("ID" : str)] in
  (occursIn (lineOf inside)
            (fst (generateMarkdownContent "now" "dump.sql" "der" small
                                          sampleRelationships))
   /\ occursIn (rowOf across)
               (fst (generateMarkdownContent "now" "dump.sql" "der" small
                                             sampleRelationships)))
  /\ (occursIn (rowOf across)
               (fst (generateMarkdownContent "now" "dump.sql" "der" large
                                             sampleRelationships))
      /\ occursIn (lineOf inside)
                  (snd (partitionFile "now" "der" large sampleRelationships 0))).
Proof.
  cbv zeta. split.
  - destruct (relationship_lines_and_rows "now" "dump.sql" "der.md" "der"
                (sampleTables 3) sampleRelationships)
      as (_ & _ & H & _).
    assert (Hn : length (sampleTables 3) <= 100) by (vm_compute; lia).
    destruct (H Hn) as (_ & Hl & Hr). split.
    + apply Hl; [now left | reflexivity].
    + apply Hr. right. now left.
  - destruct (relationship_lines_and_rows "now" "dump.sql" "der.md" "der"
                (sampleTables 101) sampleRelationships)
      as (_ & _ & _ & H & _).
    assert (Hn : 100 < length (sampleTables 101)) by (vm_compute; lia).
    destruct (H Hn) as (_ & _ & Hr & Hl). split.
    + apply Hr. right. now left.
    + apply Hl; [now left | reflexivity].
Defined.

(** The statement of C4 on schemas of 150 and of 100 tables: the four
    files of the first, with the table T100 in the third partition
    document, and the single file of the second. *)
Lemma partitioning_by_table_count_witness :
  let large := sampleTables 150 in
  let rels := sampleRelationships in
  (writeOutput "now" "dump.sql" "der.md" "der" large rels
   = [partitionFile "now" "der" large rels 0;
      partitionFile "now" "der" large rels 1;
      partitionFile "now" "der" large rels 2;
      (("der" : str) ++ "_index.md", indexDocument "now" "der" large rels)]
   /\ chunk 0 large ++ chunk 1 large ++ chunk 2 large = large)
  /\ (occursIn ("    " ++ cleanName "T100" ++ " {" ++ [nl])
               (snd (partitionFile "now" "der" large rels 2))
      /\ occursIn ("### " ++ "T100" ++ [nl; nl])
                  (snd (partitionFile "now" "der" large rels 2)))
  /\ writeOutput "now" "dump.sql" "der.md" "der" (sampleTables 100) rels
     = [(("der.md" : str),
         singleDocument "now" "dump.sql" (sampleTables 100)
           (filter (bothExist (sampleTables 100)) rels) rels)].
Proof.
  cbv zeta. split; [|split].
  - destruct (partitioning_by_table_count "now" "dump.sql" "der.md" "der"
                (sampleTables 150) sampleRelationships)
      as (_ & _ & _ & _ & _ & H & _).
    assert (Hn : length (sampleTables 150) = 150) by reflexivity.
    destruct (H Hn) as (Ho & _ & _ & _ & Hc). split; [exact Ho | exact Hc].
  - destruct (partitioning_by_table_count "now" "dump.sql" "der.md" "der"
                (sampleTables 150) sampleRelationships)
      as (_ & _ & _ & _ & H & _).
    apply (H 2 (("T100" : str), mkTableInfo [mkColumn "ID" NUMBER true false] [])).
    vm_compute. now left.
  - destruct (partitioning_by_table_count "now" "dump.sql" "der.md" "der"
                (sampleTables 100) sampleRelationships)
      as (_ & _ & _ & _ & _ & _ & H).
    apply H. reflexivity.
Defined.

(** * Further properties of the script *)

(** ** What the scanner hands on *)

Lemma includes_char (c : ascii) (s : str) : includes [c] s = true <-> In c s.
Proof.
  induction s as [|a s IH]; cbn [includes startsWith].
  - split; [discriminate | intros []].
  - rewrite orb_true_iff, IH, andb_true_r, Ascii.eqb_eq. split.
    + intros [->|H]; [now left | now right].
    + intros [->|H]; [now left | now right].
Qed.

Lemma includes_char_false (c : ascii) (s : str) :
  ~ In c s -> includes [c] s = false.
Proof.
  intros H. destruct (includes [c] s) eqn:E; [|reflexivity].
  apply includes_char in E. contradiction.
Qed.

(** X1. The body captured for a CREATE TABLE statement never holds a closing
    parenthesis, whatever the dump: the text of the statement after the
    first closing parenthesis is not seen by the member loop. *)
Theorem scanned_body_has_no_closing_parenthesis (sql : str) :
  Forall (fun m => includes ")" (group 2 m) = false)
         (execAll createTableRegex 0 0 sql).
Proof.
  apply Forall_forall. intros m H.
  apply (includes_char_false ")"%char). now apply (scanned_bodies_no_close sql).
Qed.

(** A match that goes through a given character needs it in the text. *)
Lemma char_needed (c : ascii) (r : regex) (k : mstate -> option mstate)
  (x m : mstate) :
  rmatch r (rmatch (chr c) k) x = Some m -> In c (rest x).
Proof.
  intros H. apply rmatch_continues in H as (y & H & (p & R & _) & _).
  unfold chr in H. cbn [rmatch] in H.
  destruct (rest y) as [|a t] eqn:Hy; [discriminate|].
  destruct (Ascii.eqb_spec c a) as [<-|]; [|discriminate].
  rewrite R. apply in_or_app. right. now left.
Qed.

Lemma createTable_needs_semicolon (pos : nat) (s : str) (m : mstate) :
  matchAt createTableRegex pos s = Some m -> In ";"%char s.
Proof.
  unfold matchAt. intros H.
  change (rmatch
            (seqs [ litI "CREATE"; plus ws; litI "TABLE"; plus ws;
                    Grp 1 (plus (notWsNor "(")); star ws; chr "(";
                    Grp 2 (lazyStar anyChar); chr ")";
                    Opt (Seq (star ws) (star (notIn ";"))) ])
            (rmatch (chr ";") (rmatch Eps Some)) (MState pos s []) = Some m) in H.
  now apply char_needed in H.
Qed.

Lemma execAll_In_suffix (r : regex) (s : str) : forall pos skip m,
  In m (execAll r pos skip s) ->
  exists pos' pre s', s = pre ++ s' /\ matchAt r pos' s' = Some m.
Proof.
  induction s as [|c s IH]; intros pos skip m H; cbn [execAll] in H;
    [destruct H|].
  assert (Hrec : forall pos' skip', In m (execAll r pos' skip' s) ->
            exists pos'' pre s', c :: s = pre ++ s' /\ matchAt r pos'' s' = Some m).
  { intros pos' skip' H'. apply IH in H' as (p & pre & s' & -> & H').
    now exists p, (c :: pre), s'. }
  destruct skip as [|k]; [|now apply Hrec in H].
  destruct (matchAt r pos (c :: s)) as [m'|] eqn:E; [|now apply Hrec in H].
  destruct H as [<-|H]; [now exists pos, [], (c :: s) | now apply Hrec in H].
Qed.

Lemma no_semicolon_no_match (sql : str) :
  includes ";" sql = false -> execAll createTableRegex 0 0 sql = [].
Proof.
  intros H. destruct (execAll createTableRegex 0 0 sql) as [|m ms] eqn:E;
    [reflexivity|].
  exfalso.
  destruct (execAll_In_suffix createTableRegex sql 0 0 m) as (p & pre & s & -> & Hm).
  { rewrite E. now left. }
  apply createTable_needs_semicolon in Hm.
  assert (Hin : In ";"%char (pre ++ s)) by (apply in_or_app; now right).
  apply (includes_char ";"%char) in Hin.
  change (includes [";"%char] (pre ++ s) = false) in H. congruence.
Qed.

(** X3. A dump without any semicolon yields no table and no output file,
    whatever else it holds. *)
Theorem no_semicolon_no_output
  (timestamp inputFile outputFile outputBaseName sql : str) :
  includes ";" sql = false ->
  tables (buildSchema sql) = []
  /\ main timestamp inputFile outputFile outputBaseName sql = [].
Proof.
  intros H.
  assert (Ht : tables (buildSchema sql) = []).
  { unfold buildSchema. rewrite scanAlter_tables. unfold scanCreate.
    now rewrite (no_semicolon_no_match sql H). }
  split; [assumption|].
  unfold main, writeOutput. now rewrite Ht.
Qed.

(** The statement above on a dump whose statement lacks its semicolon. *)
Lemma no_semicolon_no_output_witness :
  tables (buildSchema "CREATE TABLE EMP (ID NUMBER)") = []
  /\ main "now" "dump.sql" "der.md" "der" "CREATE TABLE EMP (ID NUMBER)" = [].
Proof.
  apply no_semicolon_no_output. reflexivity.
Defined.

(** ** The rejection rule on canonical names *)

Lemma wordOnly_no_close (s : str) : wordOnly s -> ~ In ")"%char s.
Proof.
  intros H Hin. unfold wordOnly in H. rewrite Forall_forall in H.
  specialize (H _ Hin). vm_compute in H. discriminate.
Qed.

Lemma digitsParen_needs_close (s : str) (m : mstate) :
  jsMatch digitsParenRegex s = Some m -> In ")"%char s.
Proof.
  unfold jsMatch. intros H.
  apply search_Some in H as (pos & pre & t & -> & H). unfold matchAt in H.
  change (rmatch (seqs [ Bol; plus (Cls isDigit) ])
            (rmatch (chr ")") (rmatch (Seq Eol Eps) Some))
            (MState pos t []) = Some m) in H.
  apply char_needed in H. apply in_or_app. now right.
Qed.

(** X4. Two of the six tests of the rejection rule can never fire: a name
    that went through [cleanName] holds no closing parenthesis, so the
    rule only rejects the three reserved words (in any letter case) and
    the empty name. *)
Theorem rejection_rule_on_canonical_names (raw : str) :
  let columnName := cleanName raw in
  includes ")" columnName = false
  /\ jsMatch digitsParenRegex columnName = None
  /\ rejected columnName
     = (strEq (toUpperCase columnName) "PARTITION"
        || strEq (toUpperCase columnName) "PRIMARY"
        || strEq (toUpperCase columnName) "KEY"
        || (length columnName =? 0)).
Proof.
  cbv zeta.
  pose proof (wordOnly_no_close _ (cleanName_wordOnly raw)) as Hno.
  assert (H1 : includes ")" (cleanName raw) = false)
    by now apply (includes_char_false ")"%char).
  assert (H2 : jsMatch digitsParenRegex (cleanName raw) = None).
  { destruct (jsMatch digitsParenRegex (cleanName raw)) eqn:E; [|reflexivity].
    apply digitsParen_needs_close in E. contradiction. }
  split; [assumption|]. split; [assumption|].
  unfold rejected. rewrite H1, H2. cbn [isSome]. now rewrite !orb_false_r.
Qed.

(** ** Invariants of the scanned schema *)

(** What holds of every table a CREATE TABLE match may register holds of
    every table of the map after the scan. *)
Lemma scanCreate_tables_Forall (P : str * TableInfo -> Prop) :
  (forall (s : Schema) (m : mstate),
      bColumns (processBody (cleanName (group 1 m)) (group 2 m)
                            (relationships s)) <> [] ->
      P (cleanName (group 1 m),
         mkTableInfo
           (bColumns (processBody (cleanName (group 1 m)) (group 2 m)
                                  (relationships s)))
           (bConstraints (processBody (cleanName (group 1 m)) (group 2 m)
                                      (relationships s))))) ->
  forall (ms : list mstate) (s : Schema),
    Forall P (tables s) -> Forall P (tables (fold_left processCreate ms s)).
Proof.
  intros HP ms. induction ms as [|m ms IH]; intros s Hs; cbn [fold_left];
    [assumption|].
  apply IH. unfold processCreate. cbv zeta.
  destruct (0 <? length _) eqn:E; cbn [tables]; [|assumption].
  apply mapSet_Forall; [assumption|]. apply HP.
  apply Nat.ltb_lt in E. intros Hnil. rewrite Hnil in E. simpl in E. lia.
Qed.

Lemma buildSchema_tables_Forall (P : str * TableInfo -> Prop) :
  (forall (tableName : str) (cols : list Column) (cons : list Constraint),
      wordOnly tableName ->
      (exists ls, cols = flat_map columnsOfLine ls) ->
      P (tableName, mkTableInfo cols cons)) ->
  forall sql, Forall P (tables (buildSchema sql)).
Proof.
  intros HP sql. unfold buildSchema. rewrite scanAlter_tables.
  unfold scanCreate. apply scanCreate_tables_Forall; [|constructor].
  intros s m _. apply HP; [apply cleanName_wordOnly|].
  rewrite processBody_parts. cbn [bColumns]. eauto.
Qed.

Lemma columns_Forall (P : Column -> Prop) (ls : list str) :
  (forall line c, columnsOfLine line = [c] -> P c) ->
  Forall P (flat_map columnsOfLine ls).
Proof.
  intros HP. apply flat_map_Forall. intros line.
  destruct (columnsOfLine_cases line) as [E | (c & E & _)]; rewrite E;
    [constructor|]. repeat constructor. now apply (HP line).
Qed.

Lemma split_nonempty (sep : ascii) (s : str) : split sep s <> [].
Proof.
  induction s as [|c s IH]; simpl; [discriminate|].
  destruct (Ascii.eqb c sep); [discriminate|].
  destruct (split sep s); [congruence | discriminate].
Qed.

Lemma namesOf_wordOnly (cols : str) : Forall wordOnly (namesOf cols).
Proof.
  unfold namesOf. apply Forall_map, Forall_forall. intros x _.
  apply cleanName_wordOnly.
Qed.

Lemma namesOf_length (cols : str) : 1 <= length (namesOf cols).
Proof.
  unfold namesOf. rewrite length_map.
  pose proof (split_nonempty "," cols) as H.
  destruct (split "," cols); [congruence | simpl; lia].
Qed.

(** X5. Every name of a scanned schema is canonical, so the second
    [cleanName] that the renderer applies to table and column names
    changes nothing: the names in the diagram are the names in the schema
    and in the relationship table. *)
Theorem scanned_names_are_canonical (sql : str) :
  Forall canonicalTable (tables (buildSchema sql))
  /\ Forall canonicalRelationship (relationships (buildSchema sql))
  /\ Forall (fun e => cleanName (fst e) = fst e
                      /\ Forall (fun c => cleanName (name c) = name c)
                                (columns (snd e)))
            (tables (buildSchema sql))
  /\ Forall (fun r => cleanName (from r) = from r /\ cleanName (to r) = to r)
            (relationships (buildSchema sql)).
Proof.
  assert (Ht : Forall canonicalTable (tables (buildSchema sql))).
  { apply buildSchema_tables_Forall. intros tableName cols cons Hn [ls ->].
    split; [exact Hn|]. cbn [snd columns]. apply columns_Forall.
    intros line c E.
    destruct (columnsOfLine_cases line) as [E' | (c' & E' & [_ Hw] & _)];
      rewrite E' in E; [discriminate|]. now injection E as <-. }
  assert (Hr : Forall canonicalRelationship (relationships (buildSchema sql))).
  { rewrite (proj2 (inline_constraints_never_match sql)).
    apply Forall_map, Forall_forall. intros m _.
    unfold canonicalRelationship, alterRelationship. cbn [from to fromColumns toColumns].
    repeat split; try apply cleanName_wordOnly; apply namesOf_wordOnly. }
  split; [assumption|]. split; [assumption|]. split.
  - eapply Forall_impl; [|exact Ht]. intros e [Hk Hc]. split.
    + now apply cleanName_fixes_wordOnly.
    + eapply Forall_impl; [|exact Hc]. intros c Hw.
      now apply cleanName_fixes_wordOnly.
  - eapply Forall_impl; [|exact Hr]. intros r (Hf & Hto & _).
    split; now apply cleanName_fixes_wordOnly.
Qed.

(** X6. No column of a scanned schema is both primary key and not null: the
    not-null flag is dropped when the member holds PRIMARY KEY, so the
    listing never shows both marks on one column. *)
Theorem primary_key_excludes_not_null (sql : str) :
  Forall (fun e => Forall (fun c => isPrimaryKey c && isNotNull c = false)
                          (columns (snd e)))
         (tables (buildSchema sql)).
Proof.
  apply buildSchema_tables_Forall. intros tableName cols cons _ [ls ->].
  cbn [snd columns]. apply columns_Forall. intros line c E.
  destruct (columnsOfLine_cases line) as [E' | (c' & E' & _ & _ & _ & Hnn)];
    rewrite E' in E; [discriminate|]. injection E as <-.
  rewrite Hnn. now destruct (isPrimaryKey c'), (includes _ _).
Qed.

(** X7. Every relationship of a scanned schema has at least one source column
    and at least one target column. *)
Theorem relationships_have_columns (sql : str) :
  Forall (fun r => 1 <= length (fromColumns r) /\ 1 <= length (toColumns r))
         (relationships (buildSchema sql)).
Proof.
  rewrite (proj2 (inline_constraints_never_match sql)).
  apply Forall_map, Forall_forall. intros m _.
  unfold alterRelationship. cbn [fromColumns toColumns].
  split; apply namesOf_length.
Qed.

Lemma mapSet_length (k : str) (v : TableInfo) (m : TableMap) :
  length (mapSet k v m) <= S (length m).
Proof.
  induction m as [|[k' v'] m IH]; simpl; [lia|].
  destruct (strEq k' k); simpl; lia.
Qed.

Lemma scanCreate_length (ms : list mstate) : forall s,
  length (tables (fold_left processCreate ms s))
  <= length (tables s) + length ms.
Proof.
  induction ms as [|m ms IH]; intros s; cbn [fold_left length]; [lia|].
  specialize (IH (processCreate s m)).
  assert (length (tables (processCreate s m)) <= S (length (tables s))).
  { unfold processCreate. cbv zeta.
    destruct (0 <? length _); cbn [tables]; [apply mapSet_length | lia]. }
  lia.
Qed.

(** X8. The schema never has more tables than the dump has CREATE TABLE
    matches, and it has exactly one relationship per match of the ALTER
    TABLE pattern. *)
Theorem schema_size (sql : str) :
  length (tables (buildSchema sql))
  <= length (execAll createTableRegex 0 0 sql)
  /\ length (relationships (buildSchema sql))
     = length (execAll alterConstraintRegex 0 0 sql).
Proof.
  split.
  - unfold buildSchema. rewrite scanAlter_tables. unfold scanCreate.
    apply (scanCreate_length _ (mkSchema [] [])).
  - rewrite (proj2 (inline_constraints_never_match sql)). apply length_map.
Qed.

(** ** Defining a table twice *)

Lemma mapSet_In_other (k : str) (v : TableInfo) (m : TableMap)
  (e : str * TableInfo) :
  fst e <> k -> (In e (mapSet k v m) <-> In e m).
Proof.
  intros Hne. induction m as [|[k' v'] m IH]; simpl.
  - split; [intros [<-|[]]; now elim Hne | intros []].
  - destruct (strEq k' k) eqn:E; simpl.
    + apply strEq_eq in E. subst k'. split.
      * intros [<-|H]; [now elim Hne | now right].
      * intros [<-|H]; [now elim Hne | now right].
    + rewrite IH. reflexivity.
Qed.

Lemma mapSet_In_key (k : str) (v v' : TableInfo) (m : TableMap) :
  NoDup (map fst m) -> In (k, v') (mapSet k v m) -> v' = v.
Proof.
  induction m as [|[k0 v0] m IH]; simpl; intros Hn H.
  - destruct H as [H|[]]. now injection H.
  - inversion Hn as [|? ? Hnotin Hn']; subst.
    destruct (strEq k0 k) eqn:E.
    + apply strEq_eq in E. subst k0.
      destruct H as [H|H]; [now injection H|].
      elim Hnotin. apply in_map_iff. now exists (k, v').
    + destruct H as [H|H]; [|now apply IH].
      injection H as -> _. rewrite (proj2 (strEq_eq k k) eq_refl) in E.
      discriminate.
Qed.

(** X9. A CREATE TABLE statement for a name the map already holds replaces
    the table in place: the order and the number of the tables stay as
    they were, the entry of that name carries the new columns and no other
    entry changes. *)
Theorem redefinition_replaces_in_place (s : Schema) (m : mstate) :
  let tableName := cleanName (group 1 m) in
  let b := processBody tableName (group 2 m) (relationships s) in
  NoDup (map fst (tables s)) ->
  mapHas tableName (tables s) = true ->
  bColumns b <> [] ->
  map fst (tables (processCreate s m)) = map fst (tables s)
  /\ (forall info, In (tableName, info) (tables (processCreate s m)) <->
                   info = mkTableInfo (bColumns b) (bConstraints b))
  /\ (forall e, fst e <> tableName ->
                (In e (tables (processCreate s m)) <-> In e (tables s))).
Proof.
  cbv zeta. intros Hn Hhas Hcols. unfold processCreate. cbv zeta.
  destruct (bColumns _) as [|c cs] eqn:E; [congruence|].
  cbn [length Nat.ltb Nat.leb tables].
  split; [now rewrite mapSet_keys, Hhas|]. split.
  - intros info. split.
    + now apply mapSet_In_key.
    + intros ->. apply mapSet_In.
  - intros e He. now apply mapSet_In_other.
Qed.

(** The statement above on a dump that defines T, then U, then T again. *)
Lemma redefinition_replaces_in_place_witness :
  map fst (tables (processCreate twoTables redefinitionMatch))
  = map fst (tables twoTables)
  /\ map fst (tables (buildSchema
       "CREATE TABLE T (A NUMBER); CREATE TABLE U (B DATE); CREATE TABLE T (C DATE);"))
     = [("T" : str); ("U" : str)].
Proof.
  split; [|reflexivity].
  refine (proj1 (redefinition_replaces_in_place twoTables redefinitionMatch _ _ _)).
  - vm_compute. repeat constructor; intros H; vm_compute in H; intuition discriminate.
  - reflexivity.
  - vm_compute. discriminate.
Defined.

(** ** Partitions *)

Lemma firstn_plus {A : Type} (a b : nat) (l : list A) :
  firstn (a + b) l = firstn a l ++ firstn b (skipn a l).
Proof.
  revert l. induction a as [|a IH]; intros l; [reflexivity|].
  destruct l as [|x l]; cbn [Nat.add firstn skipn app].
  - now rewrite firstn_nil.
  - now rewrite IH.
Qed.

(** A chunk is the next 50 tables, fewer at the end of the list. *)
Lemma chunk_firstn (i : nat) (tbls : TableMap) :
  chunk i tbls = firstn 50 (skipn (i * 50) tbls).
Proof.
  unfold chunk, chunkEnd, chunkStart, slice.
  destruct (Nat.le_gt_cases (i * 50 + 50) (length tbls)) as [H|H].
  - rewrite Nat.min_l by assumption. f_equal. lia.
  - rewrite Nat.min_r by lia.
    rewrite !firstn_all2; [reflexivity | |]; rewrite length_skipn; lia.
Qed.

Lemma chunks_concat (tbls : TableMap) (k : nat) :
  concat (map (fun i => chunk i tbls) (seq 0 k)) = firstn (k * 50) tbls.
Proof.
  induction k as [|k IH]; [reflexivity|].
  rewrite seq_S, map_app, concat_app, IH. cbn [map concat Nat.add].
  rewrite app_nil_r, chunk_firstn.
  replace (S k * 50) with (k * 50 + 50) by lia.
  now rewrite firstn_plus.
Qed.

Lemma ceilDiv_bounds (n : nat) :
  n <= ceilDiv n 50 * 50 /\ (0 < n -> (ceilDiv n 50 - 1) * 50 < n).
Proof.
  unfold ceilDiv.
  pose proof (Nat.div_mod_eq n 50) as E.
  pose proof (Nat.mod_upper_bound n 50) as U.
  destruct (Nat.eqb_spec (n mod 50) 0); lia.
Qed.

Lemma chunk_length_at (i : nat) (tbls : TableMap) :
  length (chunk i tbls) = Nat.min 50 (length tbls - i * 50).
Proof. now rewrite chunk_firstn, length_firstn, length_skipn. Qed.

(** X10. However many tables there are, the partition loop writes one
    document per chunk, and the chunks, taken in order, are the table list
    cut into pieces: nothing is lost, repeated or reordered; no chunk is
    empty or longer than 50 tables, and every chunk but the last has
    exactly 50. *)
Theorem chunks_cover_the_tables
  (timestamp outputBaseName : str) (rels : list Relationship) (tbls : TableMap) :
  let total := ceilDiv (length tbls) 50 in
  snd (generatePartitionedDiagrams timestamp outputBaseName rels tbls)
  = map (fun i =>
           (partitionFileName outputBaseName i,
            fst (partitionDocument timestamp outputBaseName rels total i
                   (chunkStart i) (chunkEnd i tbls) (chunk i tbls))))
        (seq 0 total)
  /\ concat (map (fun i => chunk i tbls) (seq 0 total)) = tbls
  /\ Forall (fun i => 1 <= length (chunk i tbls) <= 50) (seq 0 total)
  /\ Forall (fun i => length (chunk i tbls) = 50) (seq 0 (total - 1)).
Proof.
  cbv zeta. destruct (ceilDiv_bounds (length tbls)) as [Hup Hlow].
  split; [apply partitioned_writes|]. split; [|split].
  - rewrite chunks_concat. now apply firstn_all2.
  - apply Forall_forall. intros i Hi. apply in_seq in Hi.
    rewrite chunk_length_at.
    assert (0 < length tbls).
    { destruct tbls; [|simpl; lia]. vm_compute in Hi. lia. }
    specialize (Hlow H). nia.
  - apply Forall_forall. intros i Hi. apply in_seq in Hi.
    rewrite chunk_length_at.
    assert (0 < length tbls).
    { destruct tbls; [|simpl; lia]. vm_compute in Hi. lia. }
    specialize (Hlow H). nia.
Qed.

(** *** File names *)

Lemma dec_inj (a b : nat) : dec a = dec b -> a = b.
Proof.
  unfold dec. intros H.
  apply (f_equal string_of_list_ascii) in H.
  rewrite !string_of_list_ascii_of_string in H.
  apply (f_equal NilEmpty.uint_of_string) in H.
  rewrite !NilEmpty.usu in H. injection H as H.
  now apply DecimalNat.Unsigned.to_uint_inj.
Qed.

Lemma partitionFileName_inj (base : str) (i j : nat) :
  partitionFileName base i = partitionFileName base j -> i = j.
Proof.
  unfold partitionFileName. intros H.
  apply app_inv_head in H. apply app_inv_head in H.
  apply app_inv_tail in H. apply dec_inj in H. lia.
Qed.

Lemma index_name_is_no_partition (base : str) (i : nat) :
  partitionFileName base i <> base ++ "_index.md".
Proof.
  unfold partitionFileName. intros H. apply app_inv_head in H.
  cbn in H. discriminate H.
Qed.

Lemma NoDup_map_injective {A B : Type} (f : A -> B) (l : list A) :
  (forall x y, f x = f y -> x = y) -> NoDup l -> NoDup (map f l).
Proof.
  intros Hf. induction 1 as [|x l Hx Hn IH]; simpl; constructor; [|assumption].
  intros Hin. apply in_map_iff in Hin as (y & E & Hy).
  apply Hf in E. now subst.
Qed.

(** X11. No file is written twice: the partition files have pairwise distinct
    names and none of them has the name of the index, whatever the base
    name and the schema. *)
Theorem output_file_names_distinct
  (timestamp inputFile outputFile outputBaseName : str)
  (tbls : TableMap) (rels : list Relationship) :
  NoDup (map fst (writeOutput timestamp inputFile outputFile outputBaseName
                              tbls rels)).
Proof.
  destruct (Nat.le_gt_cases (length tbls) 100) as [Hle|Hgt].
  - destruct tbls as [|e tbls'] eqn:E.
    + unfold writeOutput. cbn [length Nat.eqb]. constructor.
    + rewrite output_single by (simpl in *; lia).
      repeat constructor. intros [].
  - rewrite output_partitioned by assumption.
    rewrite map_app, map_map. cbn [map fst].
    apply NoDup_app.
    + apply NoDup_map_injective; [apply partitionFileName_inj | apply seq_NoDup].
    + repeat constructor. intros [].
    + intros x Hx [<-|[]]. apply in_map_iff in Hx as (i & E & _).
      now apply index_name_is_no_partition in E.
Qed.

(** *** A relationship and the partitions *)

Lemma In_firstn {A : Type} (x : A) (n : nat) (l : list A) :
  In x (firstn n l) -> In x l.
Proof.
  intros H. rewrite <- (firstn_skipn n l). apply in_or_app. now left.
Qed.

Lemma In_skipn {A : Type} (x : A) (n : nat) (l : list A) :
  In x (skipn n l) -> In x l.
Proof.
  intros H. rewrite <- (firstn_skipn n l). apply in_or_app. now right.
Qed.

Lemma NoDup_app_disjoint {A : Type} (x : A) (l1 l2 : list A) :
  NoDup (l1 ++ l2) -> In x l1 -> In x l2 -> False.
Proof.
  induction l1 as [|a l1 IH]; [intros _ []|].
  cbn [app]. intros Hn [->|H1] H2.
  - inversion Hn as [|? ? Hnotin _]; subst. apply Hnotin.
    apply in_or_app. now right.
  - inversion Hn; subst. now apply IH.
Qed.

(** With unique keys, a key of an earlier chunk is no key of a later one. *)
Lemma chunks_disjoint (tbls : TableMap) (k : str) (i j : nat) :
  NoDup (map fst tbls) -> i < j ->
  In k (map fst (chunk i tbls)) -> In k (map fst (chunk j tbls)) -> False.
Proof.
  intros Hn Hij Hi Hj. rewrite chunk_firstn in Hi, Hj.
  set (a := i * 50 + 50).
  assert (H1 : In k (map fst (firstn a tbls))).
  { unfold a. rewrite firstn_plus, map_app. apply in_or_app. now right. }
  assert (H2 : In k (map fst (skipn a tbls))).
  { apply in_map_iff in Hj as (e & E & He). apply in_map_iff. exists e.
    split; [assumption|]. apply In_firstn in He.
    replace (j * 50) with ((j * 50 - a) + a) in He by (unfold a; nia).
    rewrite <- skipn_skipn in He. now apply In_skipn in He. }
  rewrite <- (firstn_skipn a tbls), map_app in Hn.
  exact (NoDup_app_disjoint k _ _ Hn H1 H2).
Qed.

(** X12. When the table names are unique, as they are in a scanned schema, a
    relationship is drawn in at most one partition: it cannot have both
    its tables in each of two different chunks. *)
Theorem relationship_drawn_in_one_partition
  (tbls : TableMap) (rel : Relationship) (i j : nat) :
  NoDup (map fst tbls) ->
  i <> j ->
  (existsb (strEq (from rel)) (map fst (chunk i tbls))
   && existsb (strEq (to rel)) (map fst (chunk i tbls)))
  && (existsb (strEq (from rel)) (map fst (chunk j tbls))
      && existsb (strEq (to rel)) (map fst (chunk j tbls)))
  = false.
Proof.
  intros Hn Hij.
  destruct (_ && _) eqn:E; [|reflexivity]. exfalso.
  apply andb_true_iff in E as [Hi Hj].
  apply andb_true_iff in Hi as [Hi _]. apply andb_true_iff in Hj as [Hj _].
  apply existsb_strEq_In in Hi, Hj.
  destruct (Nat.lt_trichotomy i j) as [H|[H|H]]; [|contradiction|].
  - exact (chunks_disjoint tbls (from rel) i j Hn H Hi Hj).
  - exact (chunks_disjoint tbls (from rel) j i Hn H Hj Hi).
Qed.

Lemma sampleTables_NoDup (n : nat) : NoDup (map fst (sampleTables n)).
Proof.
  unfold sampleTables. rewrite map_map. cbn [fst].
  apply NoDup_map_injective; [|apply seq_NoDup].
  intros x y H. apply app_inv_head in H. now apply dec_inj.
Qed.

(** The statement above on 101 tables, the relationship of T1 and T2 and
    the first two chunks. *)
Lemma relationship_drawn_in_one_partition_witness :
  let tbls := sampleTables 101 in
  let rel := mkRelationship "T1" "T2" [("A" : str)] [("ID" : str)] in
  (existsb (strEq (from rel)) (map fst (chunk 0 tbls))
   && existsb (strEq (to rel)) (map fst (chunk 0 tbls)))
  && (existsb (strEq (from rel)) (map fst (chunk 1 tbls))
      && existsb (strEq (to rel)) (map fst (chunk 1 tbls)))
  = false.
Proof.
  apply relationship_drawn_in_one_partition.
  - apply sampleTables_NoDup.
  - discriminate.
Defined.

(** ** Members and tokens *)

Lemma startsWith_prefixOf (p s : str) : startsWith p s = true <-> prefixOf p s.
Proof.
  revert s. induction p as [|a p IH]; intros s; cbn [startsWith].
  - split; [intros _; now exists s | reflexivity].
  - destruct s as [|b s].
    + split; [discriminate | intros [post E]; discriminate E].
    + rewrite andb_true_iff, Ascii.eqb_eq, IH. split.
      * intros [-> [post ->]]. now exists post.
      * intros [post E]. injection E as -> ->. split; [reflexivity | now exists post].
Qed.

(** [includes] is the test for a contiguous piece. *)
Lemma includes_occursIn (sub s : str) : includes sub s = true <-> occursIn sub s.
Proof.
  induction s as [|a s IH]; cbn [includes].
  - rewrite orb_false_r, startsWith_prefixOf. split.
    + intros [post E]. now exists [], post.
    + intros (pre & post & E). destruct pre; [now exists post | discriminate E].
  - rewrite orb_true_iff, startsWith_prefixOf, IH. split.
    + intros [[post E]|(pre & post & E)].
      * now exists [], post.
      * exists (a :: pre), post. now rewrite E.
    + intros (pre & post & E). destruct pre as [|b pre].
      * left. now exists post.
      * right. injection E as _ E. now exists pre, post.
Qed.

Lemma includes_In (sub s : str) (c : ascii) :
  includes sub s = true -> In c sub -> In c s.
Proof.
  intros H Hc. apply includes_occursIn in H as (pre & post & ->).
  apply in_or_app. right. apply in_or_app. now left.
Qed.

Lemma isSpace_upperChar (c : ascii) : isSpace (upperChar c) = isSpace c.
Proof. by_cases_on_char c. Qed.

(** A match that goes through a character class needs a character of
    the class in the text. *)
Lemma class_needed (p : ascii -> bool) (r : regex)
  (k : mstate -> option mstate) (x m : mstate) :
  rmatch r (rmatch (Cls p) k) x = Some m ->
  exists c, In c (rest x) /\ p c = true.
Proof.
  intros H. apply rmatch_continues in H as (y & H & (pre & R & _) & _).
  cbn [rmatch] in H.
  destruct (rest y) as [|a t] eqn:Hy; [discriminate|].
  destruct (p a) eqn:Hp; [|discriminate].
  exists a. split; [|assumption]. rewrite R. apply in_or_app. right. now left.
Qed.

Lemma columnRegex_needs_space (line : str) (m : mstate) :
  jsMatch columnRegex line = Some m ->
  exists c, In c line /\ isSpace c = true.
Proof.
  unfold jsMatch. intros H.
  apply search_Some in H as (pos & pre & s & -> & H). unfold matchAt in H.
  change (rmatch (seqs [ Bol; star ws; Grp 1 (plus notWs) ])
            (rmatch (Cls isSpace)
               (rmatch (seqs [ star ws; Grp 2 (plus (notWsNor ",("));
                               Opt (seqs [ chr "("; star (notIn ")"); chr ")" ]) ])
                       Some))
            (MState pos s []) = Some m) in H.
  apply class_needed in H as (c & Hc & Hs). exists c.
  split; [apply in_or_app; now right | assumption].
Qed.

Lemma no_space_no_phrase (phrase line : str) :
  In " "%char phrase ->
  forallb (fun c => negb (isSpace c)) line = true ->
  includes phrase (toUpperCase line) = false.
Proof.
  intros Hp Hl. destruct (includes phrase (toUpperCase line)) eqn:E;
    [|reflexivity].
  exfalso. apply (includes_In _ _ " "%char) in E; [|assumption].
  unfold toUpperCase in E. apply in_map_iff in E as (c & Hc & Hin).
  rewrite forallb_forall in Hl. specialize (Hl c Hin).
  rewrite <- isSpace_upperChar, Hc in Hl. discriminate Hl.
Qed.

(** X13. A member that is a single token, with no white space inside, is
    ignored altogether: it adds no column, no constraint record and no
    relationship. *)
Theorem single_token_member_ignored
  (tableName : str) (st : BodyState) (line : str) :
  forallb (fun c => negb (isSpace c)) (trim line) = true ->
  processLine tableName st line = st.
Proof.
  intros H. unfold processLine. cbv zeta.
  rewrite (no_space_no_phrase "PRIMARY KEY" (trim line)) by
    (first [assumption | vm_compute; tauto]).
  rewrite (no_space_no_phrase "FOREIGN KEY" (trim line)) by
    (first [assumption | vm_compute; tauto]).
  destruct (jsMatch columnRegex (trim line)) as [m|] eqn:E.
  - exfalso. apply columnRegex_needs_space in E as (c & Hc & Hs).
    rewrite forallb_forall in H. specialize (H c Hc). rewrite Hs in H.
    discriminate H.
  - destruct (negb _ || _); [reflexivity|].
    now destruct (isConstraintLine _).
Qed.

(** The statement above on the member [ID] of the table T. *)
Lemma single_token_member_ignored_witness :
  processLine "T" (mkBody [] [] []) "ID" = mkBody [] [] []
  /\ tables (buildSchema "CREATE TABLE T (ID, NAME);") = [].
Proof.
  split; [|reflexivity].
  apply single_token_member_ignored. reflexivity.
Defined.

(** The no-break space is white space for the patterns as well: it
    parts the two tokens of a member. *)
Lemma no_break_space_parts_tokens :
  columnsOfLine ("ID" ++ ["160"%char] ++ "NUMBER")
  = [mkColumn "ID" NUMBER false false].
Proof. vm_compute. reflexivity. Qed.

(** *** Trimmed members *)

Lemma topLevelMembers_no_comma (s : str) : forall d,
  ~ In ","%char s -> topLevelMembers d s = [s].
Proof.
  induction s as [|c s IH]; intros d H; cbn [topLevelMembers]; [reflexivity|].
  unfold topLevelComma.
  destruct (Ascii.eqb_spec c ",") as [->|_]; [elim H; now left|].
  cbn [andb]. rewrite IH; [reflexivity|]. intros Hin. apply H. now right.
Qed.

(** X14. Every member returned by the splitter is trimmed, so the second
    [trim] of the member loop changes nothing; and a body without comma is
    a single member, or none when it is blank. *)
Theorem members_are_trimmed (body : str) :
  Forall (fun line => trim line = line) (splitBody body)
  /\ (includes "," body = false ->
      splitBody body = if nonEmpty (trim body) then [trim body] else []).
Proof.
  split.
  - rewrite splitBody_members. apply Forall_app. split.
    + apply Forall_map, Forall_forall. intros x _. apply trim_idempotent.
    + destruct (nonEmpty _); repeat constructor. apply trim_idempotent.
  - intros H. rewrite splitBody_members. unfold lastMember.
    rewrite topLevelMembers_no_comma; [reflexivity|].
    intros Hin. apply (includes_char ","%char) in Hin.
    change (includes [","%char] body = false) in H. congruence.
Qed.

(** The statement above on a body of one member and on a blank body. *)
Lemma members_are_trimmed_witness :
  splitBody "  ID NUMBER(10)  " = [("ID NUMBER(10)" : str)]
  /\ splitBody "   " = [].
Proof.
  split.
  - exact (proj2 (members_are_trimmed "  ID NUMBER(10)  ") eq_refl).
  - exact (proj2 (members_are_trimmed "   ") eq_refl).
Defined.

(** ** The type classifier *)

Lemma upperChar_idempotent (c : ascii) : upperChar (upperChar c) = upperChar c.
Proof. by_cases_on_char c. Qed.

Lemma toUpperCase_idempotent (s : str) :
  toUpperCase (toUpperCase s) = toUpperCase s.
Proof.
  unfold toUpperCase. rewrite map_map. apply map_ext.
  intros c. apply upperChar_idempotent.
Qed.

(** X15. The first rule wins: a type text that holds CHAR, in any letter case
    and whatever else it holds, is a STRING; and the classification does
    not depend on the letter case of the text. *)
Theorem char_types_are_strings (pre w post : str) :
  toUpperCase w = ("CHAR" : str) ->
  simplifyDataType (pre ++ w ++ post) = STRING
  /\ (forall dataType : str,
        simplifyDataType (toUpperCase dataType) = simplifyDataType dataType).
Proof.
  intros H. split.
  - unfold simplifyDataType. cbv zeta.
    replace (includes "CHAR" (toUpperCase (pre ++ w ++ post))) with true.
    + now rewrite orb_true_r.
    + symmetry. apply includes_occursIn.
      exists (toUpperCase pre), (toUpperCase post).
      unfold toUpperCase in *. now rewrite !map_app, H.
  - intros dataType. unfold simplifyDataType. cbv zeta.
    now rewrite toUpperCase_idempotent.
Qed.

(** The statement above on a type text that holds char and number. *)
Lemma char_types_are_strings_witness :
  simplifyDataType "number_or_nChar(10)" = STRING.
Proof.
  exact (proj1 (char_types_are_strings "number_or_n" "Char" "(10)" eq_refl)).
Defined.

(** ** Relationships need the keyword CONSTRAINT *)

(** A match of a literal under the [i] flag reads the literal, up to
    letter case. *)
Lemma litI_reads (w : str) : forall (k : mstate -> option mstate) (x m : mstate),
  rmatch (litI w) k x = Some m ->
  exists w' t, rest x = w' ++ t /\ toUpperCase w' = toUpperCase w.
Proof.
  induction w as [|c w IH]; intros k x m H.
  - now exists [], (rest x).
  - unfold litI in H. cbn [fold_right] in H. fold (litI w) in H.
    unfold chrI in H. cbn [rmatch] in H.
    destruct (rest x) as [|a s] eqn:Hx; [discriminate|].
    destruct (Ascii.eqb_spec (upperChar a) (upperChar c)) as [E|]; [|discriminate].
    apply IH in H as (w' & t & Hr & Hw). cbn [advance rest] in Hr.
    exists (a :: w'), t. split; [now rewrite Hr|].
    unfold toUpperCase in *. cbn [map]. now rewrite E, Hw.
Qed.

Lemma literal_needed (w : str) (r : regex) (k : mstate -> option mstate)
  (x m : mstate) :
  rmatch r (rmatch (litI w) k) x = Some m ->
  includes (toUpperCase w) (toUpperCase (rest x)) = true.
Proof.
  intros H. apply rmatch_continues in H as (y & H & (pre & R & _) & _).
  apply litI_reads in H as (w' & t & Hr & Hw).
  apply includes_occursIn. exists (toUpperCase pre), (toUpperCase t).
  rewrite R, Hr. unfold toUpperCase in *. now rewrite !map_app, Hw.
Qed.

Lemma includes_suffix (sub pre s : str) :
  includes sub s = true -> includes sub (pre ++ s) = true.
Proof.
  intros H. apply includes_occursIn in H as (p & q & ->).
  apply includes_occursIn. exists (pre ++ p), q. now rewrite app_assoc.
Qed.

Lemma alter_needs_constraint (pos : nat) (s : str) (m : mstate) :
  matchAt alterConstraintRegex pos s = Some m ->
  includes "CONSTRAINT" (toUpperCase s) = true.
Proof.
  unfold matchAt. intros H.
  change (rmatch
            (seqs [ litI "ALTER"; plus ws; litI "TABLE"; plus ws;
                    Grp 1 (plus notWs); plus ws; litI "ADD"; plus ws ])
            (rmatch (litI "CONSTRAINT")
               (rmatch
                  (seqs [ star (notIn ";");
                          litI "FOREIGN"; plus ws; litI "KEY"; star ws; chr "(";
                          Grp 2 (plus (notIn ")"));
                          chr ")"; plus ws; litI "REFERENCES"; plus ws;
                          Grp 3 (plus (notWsNor "("));
                          star ws; chr "(";
                          Grp 4 (plus (notIn ")"));
                          chr ")" ]) Some))
            (MState pos s []) = Some m) in H.
  apply literal_needed in H. exact H.
Qed.

(** X16. A dump that nowhere holds the word CONSTRAINT, in any letter case,
    yields no relationship at all: foreign keys declared inline or added
    without a constraint name are not seen. *)
Theorem no_constraint_keyword_no_relationship (sql : str) :
  includes "CONSTRAINT" (toUpperCase sql) = false ->
  relationships (buildSchema sql) = [].
Proof.
  intros H. rewrite (proj2 (inline_constraints_never_match sql)).
  destruct (execAll alterConstraintRegex 0 0 sql) as [|m ms] eqn:E;
    [reflexivity|].
  exfalso.
  destruct (execAll_In_suffix alterConstraintRegex sql 0 0 m)
    as (p & pre & s & -> & Hm); [rewrite E; now left|].
  apply alter_needs_constraint in Hm.
  apply (includes_suffix _ (toUpperCase pre)) in Hm.
  unfold toUpperCase in *. rewrite map_app in H. congruence.
Qed.

(** The statement above on a dump that adds a foreign key without naming
    a constraint. *)
Lemma no_constraint_keyword_no_relationship_witness :
  relationships
    (buildSchema
       "CREATE TABLE ORD (ID NUMBER, EMP_ID NUMBER REFERENCES EMP); ALTER TABLE ORD ADD FOREIGN KEY (EMP_ID) REFERENCES EMP(ID);")
  = [].
Proof.
  apply no_constraint_keyword_no_relationship. reflexivity.
Defined.

(** ** The statements copied by extract_create_tables.js *)

Lemma reads_weaken (mt : (mstate -> option mstate) -> mstate -> option mstate)
  (ok ok' : ascii -> bool) :
  (forall c, ok c = true -> ok' c = true) -> reads mt ok -> reads mt ok'.
Proof.
  intros Hw H k x m E. apply H in E as (pre & y & Hk & Hr & Hi & Hok).
  exists pre, y. repeat split; try assumption.
  rewrite forallb_forall in *. auto.
Qed.

Lemma repeatMatcher_reads (greedy : bool) (ok : ascii -> bool)
  (mt : (mstate -> option mstate) -> mstate -> option mstate) :
  reads mt ok -> forall n, reads (fun k => repeatMatcher greedy mt k n) ok.
Proof.
  intros Hm n. induction n as [|n IH]; intros k x m H; cbn [repeatMatcher] in H.
  - exists [], x. cbn [app length forallb]. rewrite Nat.add_0_r. auto.
  - cbv zeta in H.
    assert (Hd : mt (fun y => if index x <? index y
                              then repeatMatcher greedy mt k n y else None) x
                 = Some m ->
                 exists pre y, k y = Some m /\ rest x = pre ++ rest y
                               /\ index y = index x + length pre
                               /\ forallb ok pre = true).
    { intros E. apply Hm in E as (p1 & y & Hy & R1 & I1 & O1).
      destruct (index x <? index y); [|discriminate].
      apply IH in Hy as (p2 & z & Hz & R2 & I2 & O2).
      exists (p1 ++ p2), z. split; [assumption|].
      rewrite R1, R2, app_assoc, length_app, forallb_app, O1, O2.
      repeat split; lia. }
    assert (Hk : k x = Some m ->
                 exists pre y, k y = Some m /\ rest x = pre ++ rest y
                               /\ index y = index x + length pre
                               /\ forallb ok pre = true).
    { intros E. exists [], x. cbn [app length forallb].
      rewrite Nat.add_0_r. auto. }
    destruct greedy.
    + destruct (mt _ x) as [z|] eqn:E; [|now apply Hk].
      injection H as ->. now apply Hd.
    + destruct (k x) as [z|] eqn:E; [|now apply Hd].
      injection H as ->. now apply Hk.
Qed.

(** A match reads characters that the classes of the pattern accept. *)
Lemma rmatch_reads (r : regex) : reads (rmatch r) (mayRead r).
Proof.
  induction r as [|p|r1 IH1 r2 IH2|g r1 IH1|r1 IH1|n r1 IH1| |];
    intros k x m H; cbn [rmatch mayRead] in *.
  - exists [], x. cbn [app length forallb]. rewrite Nat.add_0_r. auto.
  - destruct (rest x) as [|c s] eqn:E; [discriminate|].
    destruct (p c) eqn:Hp; [|discriminate].
    exists [c], (advance x s). cbn [advance rest index length app forallb].
    rewrite Hp. repeat split; try assumption; lia.
  - apply IH1 in H as (p1 & y & Hy & R1 & I1 & O1).
    apply IH2 in Hy as (p2 & z & Hz & R2 & I2 & O2).
    exists (p1 ++ p2), z. split; [assumption|].
    rewrite R1, R2, app_assoc, length_app, forallb_app.
    repeat split; [lia|]. apply andb_true_iff. split.
    + rewrite forallb_forall in *. intros c Hc. now rewrite O1.
    + rewrite forallb_forall in *. intros c Hc. rewrite O2 by assumption.
      apply orb_true_r.
  - now apply (repeatMatcher_reads g (mayRead r1) (rmatch r1) IH1) in H.
  - destruct (rmatch r1 _ x) as [z|] eqn:E.
    + injection H as ->. apply IH1 in E as (p1 & y & Hy & R1 & I1 & O1).
      destruct (index x <? index y); [|discriminate]. now exists p1, y.
    + exists [], x. cbn [app length forallb]. rewrite Nat.add_0_r. auto.
  - apply IH1 in H as (p1 & y & Hy & R1 & I1 & O1).
    exists p1, (capture n x y). auto.
  - destruct (index x =? 0); [|discriminate].
    exists [], x. cbn [app length forallb]. rewrite Nat.add_0_r. auto.
  - destruct (rest x) eqn:E; [|discriminate].
    exists [], x. cbn [app length forallb]. rewrite Nat.add_0_r. auto.
Qed.

(** A pattern that reads no semicolon, then anything lazily, then a
    semicolon, matches up to the first semicolon. *)
Lemma statement_shape (a : regex) (pos : nat) (s : str) (m : mstate) :
  mayRead a ";" = false ->
  rmatch a (rmatch (lazyStar anyChar) (rmatch (chr ";") (rmatch Eps Some)))
         (MState pos s []) = Some m ->
  exists body t, s = body ++ ";"%char :: t /\ ~ In ";"%char body
                 /\ index m = pos + length body + 1.
Proof.
  intros Ha H. apply rmatch_reads in H as (p1 & y & H & R1 & I1 & O1).
  unfold lazyStar in H. cbn [rmatch] in H.
  apply lazy_any_first in H as (p2 & z & R2 & Hz & Hk & Hmin).
  unfold chr in Hk. cbn [rmatch] in Hk.
  destruct (rest z) as [|c t] eqn:Ez; [discriminate|].
  destruct (Ascii.eqb_spec ";" c) as [<-|]; [|discriminate].
  injection Hk as <-. cbn [rest index] in *.
  exists (p1 ++ p2), t. split; [now rewrite R1, R2, <- app_assoc|]. split.
  - intros Hin. apply in_app_or in Hin as [Hin|Hin].
    + rewrite forallb_forall in O1. specialize (O1 _ Hin). congruence.
    + apply in_split in Hin as (q1 & q2 & ->).
      specialize (Hmin q1 ";"%char q2 eq_refl).
      unfold chr in Hmin. cbn [rmatch rest] in Hmin. discriminate Hmin.
  - rewrite Hz. cbn [advance index]. rewrite length_app. lia.
Qed.

Lemma matchTexts_In (r : regex) (s : str) : forall pos skip t,
  In t (Extract.matchTexts r pos skip s) ->
  exists pos' pre s' m,
    s = pre ++ s' /\ matchAt r pos' s' = Some m
    /\ t = firstn (index m - pos') s'.
Proof.
  induction s as [|c s IH]; intros pos skip t H; cbn [Extract.matchTexts] in H;
    [destruct H|].
  assert (Hrec : forall pos' skip', In t (Extract.matchTexts r pos' skip' s) ->
            exists pos'' pre s' m,
              c :: s = pre ++ s' /\ matchAt r pos'' s' = Some m
              /\ t = firstn (index m - pos'') s').
  { intros pos' skip' H'. apply IH in H' as (p & pre & s' & m & -> & H' & Ht).
    now exists p, (c :: pre), s', m. }
  destruct skip as [|k]; [|now apply Hrec in H].
  destruct (matchAt r pos (c :: s)) as [m'|] eqn:E; [|now apply Hrec in H].
  destruct H as [<-|H]; [now exists pos, [], (c :: s), m' | now apply Hrec in H].
Qed.

Lemma statement_text (body t : str) :
  ~ In ";"%char body ->
  endsAtFirstSemicolon (firstn (length body + 1) (body ++ ";"%char :: t)) = true.
Proof.
  intros H.
  replace (firstn (length body + 1) (body ++ ";"%char :: t))
    with (body ++ [";"%char]).
  - unfold endsAtFirstSemicolon. rewrite rev_app_distr. cbn [rev app].
    cbn [Ascii.eqb Bool.eqb andb].
    destruct (existsb (Ascii.eqb ";") (rev body)) eqn:E; [|reflexivity].
    apply existsb_exists in E as (c & Hc & E). apply Ascii.eqb_eq in E.
    subst c. apply in_rev in Hc. contradiction.
  - rewrite firstn_app, firstn_all2 by lia.
    replace (length body + 1 - length body) with 1 by lia. reflexivity.
Qed.

Lemma statements_of (a : regex) (sql : str) :
  mayRead a ";" = false ->
  forall r,
    (forall pos s m, matchAt r pos s = Some m ->
       rmatch a (rmatch (lazyStar anyChar) (rmatch (chr ";") (rmatch Eps Some)))
              (MState pos s []) = Some m) ->
    Forall (fun t => endsAtFirstSemicolon t = true /\ includes t sql = true)
           (Extract.matchTexts r 0 0 sql).
Proof.
  intros Ha r Hr. apply Forall_forall. intros t Ht.
  apply matchTexts_In in Ht as (pos & pre & s & m & -> & Hm & ->).
  apply Hr in Hm. apply (statement_shape a) in Hm as (body & rest' & -> & Hb & Hi);
    [|assumption].
  replace (index m - pos) with (length body + 1) by lia. split.
  - now apply statement_text.
  - apply includes_occursIn.
    replace (firstn (length body + 1) (body ++ ";"%char :: rest'))
      with (body ++ [";"%char]).
    + exists pre, rest'. now rewrite <- !app_assoc.
    + rewrite firstn_app, firstn_all2 by lia.
      replace (length body + 1 - length body) with 1 by lia. reflexivity.
Qed.

(** X17. Every statement the script copies, of each of the four kinds, is a
    piece of the dump that ends at the first semicolon after its keyword:
    it ends in a semicolon and holds no other, even when the semicolon
    stands inside parentheses or quotes. *)
Theorem extracted_statements_end_at_first_semicolon (sql : str) :
  let statement := fun t => endsAtFirstSemicolon t = true
                            /\ includes t sql = true in
  Forall statement (Extract.matchTexts Extract.createTableRegex 0 0 sql)
  /\ Forall statement (Extract.matchTexts Extract.alterTableRegex 0 0 sql)
  /\ Forall statement (Extract.matchTexts Extract.addConstraintRegex 0 0 sql)
  /\ Forall statement (Extract.matchTexts Extract.createIndexRegex 0 0 sql).
Proof.
  cbv zeta. split; [|split; [|split]].
  - apply (statements_of (seqs [ litI "CREATE"; plus ws; litI "TABLE" ]));
      [reflexivity|]. intros pos s m H. exact H.
  - apply (statements_of (seqs [ litI "ALTER"; plus ws; litI "TABLE" ]));
      [reflexivity|]. intros pos s m H. exact H.
  - apply (statements_of
             (seqs [ litI "ALTER"; plus ws; litI "TABLE"; plus ws;
                     plus (Cls isWord); plus ws; litI "ADD"; plus ws;
                     litI "CONSTRAINT" ]));
      [reflexivity|]. intros pos s m H. exact H.
  - apply (statements_of
             (seqs [ litI "CREATE"; plus ws;
                     Opt (Seq (litI "UNIQUE") (plus ws)); litI "INDEX" ]));
      [reflexivity|]. intros pos s m H. exact H.
Qed.

Lemma join_occurs (sep x : str) (xs : list str) :
  In x xs -> occursIn x (join sep xs).
Proof.
  induction xs as [|a xs IH]; [intros []|].
  destruct xs as [|b xs].
  - intros [->|[]]. cbn [join]. now exists [], []; rewrite app_nil_r.
  - intros [->|H].
    + change (join sep (x :: b :: xs)) with (x ++ sep ++ join sep (b :: xs)).
      now exists [], (sep ++ join sep (b :: xs)).
    + change (join sep (a :: b :: xs)) with (a ++ sep ++ join sep (b :: xs)).
      apply occursIn_right, occursIn_right. now apply IH.
Qed.

Lemma Some_eq {A : Type} (a b : A) : Some a = Some b -> a = b.
Proof. congruence. Qed.

Lemma length_zero_nil {A : Type} (l : list A) : (length l =? 0) = true <-> l = [].
Proof. destruct l; simpl; split; congruence. Qed.

(** X18. Both versions of the script write a file exactly when the dump holds
    a CREATE TABLE statement, whatever other statements it holds; the file
    of the second version then holds every statement found, of the four
    kinds, and the file of the first every CREATE TABLE statement. *)
Theorem extract_keeps_every_statement (sql : str) :
  let creates := Extract.matchTexts Extract.createTableRegex 0 0 sql in
  let others :=
    Extract.matchTexts Extract.alterTableRegex 0 0 sql
    ++ Extract.matchTexts Extract.addConstraintRegex 0 0 sql
    ++ Extract.matchTexts Extract.createIndexRegex 0 0 sql in
  (Extract.extract sql = None <-> creates = [])
  /\ (Extract.extractTables sql = None <-> creates = [])
  /\ (forall content, Extract.extract sql = Some content ->
        Forall (fun t => occursIn t content) (creates ++ others))
  /\ (forall content, Extract.extractTables sql = Some content ->
        Forall (fun t => occursIn t content) creates).
Proof.
  cbv zeta. unfold Extract.extract, Extract.extractTables. cbv zeta.
  destruct (length _ =? 0) eqn:E.
  - apply length_zero_nil in E. rewrite E.
    repeat split; try reflexivity; discriminate.
  - assert (Hne : Extract.matchTexts Extract.createTableRegex 0 0 sql <> []).
    { intros H. rewrite H in E. discriminate E. }
    split; [split; [discriminate | contradiction]|].
    split; [split; [discriminate | contradiction]|].
    split.
    + intros content H. apply Some_eq in H. rewrite <- H.
      apply Forall_forall. intros t Ht.
      apply join_occurs. unfold Extract.section.
      apply in_app_or in Ht as [Ht|Ht].
      * apply in_or_app. left. apply in_or_app. left. apply in_or_app. left.
        apply in_or_app. now right.
      * apply in_app_or in Ht as [Ht|Ht]; [|apply in_app_or in Ht as [Ht|Ht]].
        -- apply in_or_app. left. apply in_or_app. left. apply in_or_app. right.
           destruct (Extract.matchTexts Extract.alterTableRegex 0 0 sql);
             [destruct Ht|]. cbn [length Nat.ltb Nat.leb]. right.
           apply in_or_app. now right.
        -- apply in_or_app. left. apply in_or_app. right.
           destruct (Extract.matchTexts Extract.addConstraintRegex 0 0 sql);
             [destruct Ht|]. cbn [length Nat.ltb Nat.leb]. right.
           apply in_or_app. now right.
        -- apply in_or_app. right.
           destruct (Extract.matchTexts Extract.createIndexRegex 0 0 sql);
             [destruct Ht|]. cbn [length Nat.ltb Nat.leb]. right.
           apply in_or_app. now right.
    + intros content H. apply Some_eq in H. rewrite <- H.
      apply Forall_forall. intros t Ht. now apply join_occurs.
Qed.

(** The statement above on a dump with one statement of each kind. *)
Lemma extract_keeps_every_statement_witness :
  Forall (fun t => occursIn t extractSampleContent)
    (Extract.matchTexts Extract.createTableRegex 0 0 extractSample
     ++ Extract.matchTexts Extract.alterTableRegex 0 0 extractSample
     ++ Extract.matchTexts Extract.addConstraintRegex 0 0 extractSample
     ++ Extract.matchTexts Extract.createIndexRegex 0 0 extractSample).
Proof.
  apply (proj1 (proj2 (proj2 (extract_keeps_every_statement extractSample)))
           extractSampleContent).
  reflexivity.
Defined.

(** ** More on the schema and the names *)

(** X2. On every dump, no Table of the schema carries a constraint record and
    the relationships are exactly those of the matches of the ALTER TABLE
    pattern, in the order of the dump: the constraint members of the
    bodies never add any. *)
Theorem relationships_come_from_alter_statements (sql : str) :
  Forall noConstraints (tables (buildSchema sql))
  /\ relationships (buildSchema sql)
     = map alterRelationship (execAll alterConstraintRegex 0 0 sql).
Proof.
  unfold buildSchema. rewrite scanAlter_tables.
  unfold scanAlter. rewrite scanAlter_relationships. unfold scanCreate.
  destruct (scanCreate_no_inline (execAll createTableRegex 0 0 sql)
              (mkSchema [] [])) as [Hr Hc].
  - apply Forall_forall. intros m. apply scanned_bodies_no_close.
  - constructor.
  - split; [assumption|]. now rewrite Hr.
Qed.

Lemma hashToNum_nil (s : str) : hashToNum s = [] -> s = [].
Proof.
  destruct s as [|c s]; [reflexivity|]. unfold hashToNum. cbn [flat_map].
  destruct (Ascii.eqb c "#"); discriminate.
Qed.

(** X19. The canonical name is empty exactly when the token has nothing but
    quote and bracket characters. *)
Theorem cleanName_empty_iff (raw : str) :
  cleanName raw = []
  <-> forallb (fun c => existsb (Ascii.eqb c) [dq; "`"; "["; "]"]%char) raw = true.
Proof.
  unfold cleanName. rewrite trim_wordOnly by apply otherToUnderscore_wordOnly.
  unfold otherToUnderscore, dotsToUnderscore. split.
  - intros H. apply map_eq_nil, hashToNum_nil, map_eq_nil in H.
    unfold stripQuotes in H. induction raw as [|c raw IH]; [reflexivity|].
    cbn [filter forallb] in *.
    destruct (existsb (Ascii.eqb c) _); [now apply IH | discriminate H].
  - intros H.
    assert (E : stripQuotes raw = []).
    { unfold stripQuotes. induction raw as [|c raw IH]; [reflexivity|].
      cbn [filter forallb] in *. apply andb_true_iff in H as [Hc H].
      rewrite Hc. now apply IH. }
    now rewrite E.
Qed.

Lemma cleanName_char_length (c : ascii) : length (cleanName [c]) <= 4.
Proof. destruct c as [[] [] [] [] [] [] [] []]; vm_compute; lia. Qed.

(** X20. Normalization works character by character: the canonical name of a
    concatenation is the concatenation of the canonical names, so a dot
    and an underscore between two parts give the same canonical name, and
    a canonical name is at most four times as long as the token. *)
Theorem cleanName_is_character_wise (a b : str) :
  cleanName (a ++ b) = cleanName a ++ cleanName b
  /\ cleanName (a ++ "." ++ b) = cleanName (a ++ "_" ++ b)
  /\ length (cleanName a) <= 4 * length a.
Proof.
  split; [apply cleanName_app|]. split.
  - now rewrite !cleanName_app.
  - induction a as [|c a IH]; [vm_compute; lia|].
    change (c :: a) with ([c] ++ a). rewrite cleanName_app, length_app.
    pose proof (cleanName_char_length c). simpl length. lia.
Qed.
